(** * Tail session of promtail: pkg/promtail/targets/tailer.go

    A shallow embedding of the [tailer] type and of its five functions
    ([newTailer], [run], [markPosition], [stop], [cleanup]).

    The session talks to collaborators that live outside the file: the
    operating system ([os.Lstat], [os.Readlink], [os.Stat]), the line
    source (package hpcloud/tail), the checkpoint store (package
    positions), the metrics registry and the logger.  What they hold is
    kept in an explicit [World]; what they answer at a given call (a stat
    result, the offset [Tell] reports, a handler outcome) is an input of
    the step that makes the call.

    [run] executes as a goroutine while [stop] is called from its owner,
    so the two are modelled as two program counters stepped by a
    schedule; the channels [quit] and [done] are the only coupling.

    Numbers: offsets are Go [int64] and metric values [float64]; the file
    performs no arithmetic on offsets, and adds only small integers to
    metrics, so both are kept in [Z] (exact while the values stay below
    2^53, which is where [float64] stops being exact on integers). *)

From stdpp Require Import gmap strings list fin_maps.
From Stdlib Require Import ZArith Lia.

Local Open Scope Z_scope.

(** ** Values exchanged with the collaborators *)

(** A Go [error] value, identified by its message. *)
Definition error : Type := string.

(** A Go pair [(T, error)] of which exactly one side is meaningful. *)
Inductive result (A : Type) : Type :=
| Ok (a : A)
| Fail (e : error).
Arguments Ok {A} a.
Arguments Fail {A} e.

(** [os.FileInfo]: only [Mode()] and [Size()] are consulted. *)
Record FileInfo : Type := mkFileInfo { Mode : Z; Size : Z }.

(** [os.ModeSymlink], bit 27 of a [FileMode]. *)
Definition ModeSymlink : Z := Z.shiftl 1 27.

(** [tail.SeekInfo] and [tail.Config], restricted to the fields set by
    [newTailer] (the others keep their zero value). *)
Record SeekInfo : Type := mkSeekInfo { Offset : Z; Whence : Z }.
Record TailConfig : Type :=
  mkTailConfig { Follow : bool; ReOpen : bool; Location : SeekInfo }.

(** [tail.Tail]: the handle remembers what it was opened with. *)
Record Tail : Type := mkTail { Filename : string; Config : TailConfig }.

(** [tail.Line]. *)
Record Line : Type := mkLine { Text : string; Time : Z; Err : option error }.

(** [model.LabelSet]. *)
Abbreviation LabelSet := (gmap string string).

(** [LabelSet.Merge]: the argument's labels override the receiver's. *)
Definition Merge (l other : LabelSet) : LabelSet := other ∪ l.

(** ** Logger *)

Inductive Level : Type := Info | Debug | Error.
Inductive LogVal : Type := VStr (s : string) | VInt (z : Z) | VErr (e : error).
Definition LogEntry : Type := Level * list LogVal.

(** ** World: everything the session can change outside itself *)

Record World : Type := mkWorld {
  positions : gmap string Z;          (* checkpoint store entries *)
  readLines : gmap string Z;          (* counter lines_read{path} *)
  readBytes : gmap string Z;          (* counter bytes_read{path} *)
  totalBytes : gmap string Z;         (* gauge total_bytes{path} *)
  filesActive : Z;                    (* gauge files_active *)
  logs : list LogEntry;               (* what the logger received, oldest first *)
  handled : list (LabelSet * Z * string); (* calls that reached the downstream handler *)
  goroutines : list string            (* event loops started, by requested path *)
}.

Definition set_positions (f : gmap string Z → gmap string Z) (w : World) : World :=
  mkWorld (f (positions w)) (readLines w) (readBytes w) (totalBytes w)
          (filesActive w) (logs w) (handled w) (goroutines w).
Definition set_readLines (f : gmap string Z → gmap string Z) (w : World) : World :=
  mkWorld (positions w) (f (readLines w)) (readBytes w) (totalBytes w)
          (filesActive w) (logs w) (handled w) (goroutines w).
Definition set_readBytes (f : gmap string Z → gmap string Z) (w : World) : World :=
  mkWorld (positions w) (readLines w) (f (readBytes w)) (totalBytes w)
          (filesActive w) (logs w) (handled w) (goroutines w).
Definition set_totalBytes (f : gmap string Z → gmap string Z) (w : World) : World :=
  mkWorld (positions w) (readLines w) (readBytes w) (f (totalBytes w))
          (filesActive w) (logs w) (handled w) (goroutines w).
Definition set_filesActive (f : Z → Z) (w : World) : World :=
  mkWorld (positions w) (readLines w) (readBytes w) (totalBytes w)
          (f (filesActive w)) (logs w) (handled w) (goroutines w).
Definition Log (lvl : Level) (kvs : list LogVal) (w : World) : World :=
  mkWorld (positions w) (readLines w) (readBytes w) (totalBytes w)
          (filesActive w) (logs w ++ [(lvl, kvs)]) (handled w) (goroutines w).
Definition record_call (c : LabelSet * Z * string) (w : World) : World :=
  mkWorld (positions w) (readLines w) (readBytes w) (totalBytes w)
          (filesActive w) (logs w) (handled w ++ [c]) (goroutines w).
Definition spawn (p : string) (w : World) : World :=
  mkWorld (positions w) (readLines w) (readBytes w) (totalBytes w)
          (filesActive w) (logs w) (handled w) (goroutines w ++ [p]).

(** ** Checkpoint store (package positions) *)

(** Modelled from the spec: package positions is not part of the
    sources at hand.  The spec gives its contract as "Get(path) -> offset
    (zero if unknown), Put(path, offset), Remove(path)". *)
Definition Get (p : gmap string Z) (path : string) : Z := default 0 (p !! path).
Definition Put (p : gmap string Z) (path : string) (pos : Z) : gmap string Z :=
  <[path := pos]> p.
Definition Remove (p : gmap string Z) (path : string) : gmap string Z :=
  delete path p.

(** ** Metrics (prometheus counters and gauges, by label value) *)

Definition value (m : gmap string Z) (lbl : string) : Z := default 0 (m !! lbl).
Definition Add (lbl : string) (d : Z) (m : gmap string Z) : gmap string Z :=
  <[lbl := value m lbl + d]> m.
Definition Inc (lbl : string) (m : gmap string Z) : gmap string Z := Add lbl 1 m.
Definition Set_ (lbl : string) (v : Z) (m : gmap string Z) : gmap string Z :=
  <[lbl := v]> m.

(** ** Entry handlers (package api) *)

(** [api.EntryHandler.Handle(labels, time, text) error].  The outcome of
    a call is decided outside the file and is an input of the call. *)
Definition EntryHandler : Type :=
  LabelSet → Z → string → option error → World → World * option error.

(** The handler the owner passes in, seen from the session: it receives
    the call and answers with the outcome it was given. *)
Definition downstream : EntryHandler :=
  fun labels tm text outcome w => (record_call (labels, tm, text) w, outcome).

(** Modelled from the spec: [api.AddLabelsMiddleware] is not part of the
    sources at hand.  The spec says it wraps "the downstream handler so
    every delivered line carries an added label": the wrapped handler
    calls the next one with the added labels merged with the call's. *)
Definition AddLabelsMiddleware (additional : LabelSet) (next : EntryHandler)
  : EntryHandler :=
  fun labels tm text => next (Merge additional labels) tm text.

(** ** Operating system and line source at construction time *)

Record OS : Type := mkOS {
  Lstat : string → result FileInfo;
  Readlink : string → result string;
  (* [tail.TailFile] either refuses with an error or hands out a handle *)
  TailFile_error : string → TailConfig → option error
}.

Definition TailFile (os : OS) (filename : string) (cfg : TailConfig) : result Tail :=
  match TailFile_error os filename cfg with
  | Some e => Fail e
  | None => Ok (mkTail filename cfg)
  end.

Section Session.

(** The label name [filenameLabel] is a constant of package targets that
    is declared in another file; the session never inspects it. *)
Variable filenameLabel : string.

(** ** The session *)

(** [tailer].  The logger and the checkpoint store are the ones of the
    [World]; the channels live in the [Session] below. *)
Record tailer : Type := mkTailer {
  handler : EntryHandler;
  path : string;
  filename : string;
  tail : Tail
}.

(** A [chan struct{}] used as a one-shot signal, and [tail.Lines]. *)
Inductive Chan : Type := Open | Closed.

(** The [time.Ticker] of [run]. *)
Inductive Ticker : Type := NoTicker | Ticking | TickerStopped.

(** Where the goroutine executing [run] stands. *)
Inductive LoopPc : Type :=
| LSpawned     (* [go tailer.run()] issued, first statement not yet executed *)
| LSelect      (* blocked in the [select] of the [for] loop *)
| LExited.     (* returned, deferred function executed *)

(** Where a call of [stop] stands; from the call of [tail.Stop] on, the
    error it returned is carried along. *)
Inductive StopPc : Type :=
| SIdle
| SMarked
| SSourceStopped (err : option error)
| SQuitClosed (err : option error)
| SJoined (err : option error)
| SDecremented (err : option error)
| SReturned (err : option error).

Record Session : Type := mkSession {
  quit : Chan;
  done : Chan;
  linesCh : Chan;
  ticker : Ticker;
  loopPc : LoopPc;
  stopPc : StopPc
}.

Definition fresh : Session := mkSession Open Open Open NoTicker LSpawned SIdle.

(** ** newTailer *)

(** The test [fi.Mode()&os.ModeSymlink == os.ModeSymlink]. *)
Definition isSymlink (fi : FileInfo) : bool :=
  Z.land (Mode fi) ModeSymlink =? ModeSymlink.

Definition newTailer (os : OS) (h : EntryHandler) (w : World) (path : string)
  : result (tailer * Session) * World :=
  match Lstat os path with
  | Fail e => (Fail e, w)
  | Ok fi =>
    let resolved : result (string * bool) :=
      if isSymlink fi then
        match Readlink os path with
        | Fail e => Fail e
        | Ok target => Ok (target, true)
        end
      else Ok (path, false) in
    match resolved with
    | Fail e => (Fail e, w)
    | Ok (filename, reOpen) =>
      let cfg := mkTailConfig true reOpen
                   (mkSeekInfo (Get (positions w) filename) 0) in
      match TailFile os filename cfg with
      | Fail e => (Fail e, w)
      | Ok tl =>
        let t := mkTailer (AddLabelsMiddleware {[filenameLabel := path]} h)
                          path filename tl in
        (Ok (t, fresh), set_filesActive (fun a => a + 1) (spawn path w))
      end
    end
  end.

(** ** markPosition

    [tell] is what [t.tail.Tell()] answers at this call. *)
Definition markPosition (t : tailer) (tell : result Z) (w : World)
  : World * option error :=
  match tell with
  | Fail e => (w, Some e)
  | Ok pos =>
    let w1 := Log Debug [VStr "path"; VStr (path t); VStr "filename";
                         VStr (filename t); VStr "current_position"; VInt pos] w in
    (set_positions (fun p => Put p (filename t) pos) w1, None)
  end.

(** ** cleanup *)

Definition cleanup (t : tailer) (w : World) : World :=
  set_positions (fun p => Remove p (filename t)) w.

(** ** run

    One case of the [select] is taken per iteration.  Each event carries
    what the collaborators answer during that iteration.  The period of
    the ticker, [t.positions.SyncPeriod()], is taken positive (as
    [time.NewTicker] requires) and the handler is taken not to panic. *)
Inductive RunEvent : Type :=
| Tick (st : result FileInfo) (tell : result Z)   (* [<-positionWait.C] *)
| LineRecv (l : Line) (outcome : option error)    (* [<-t.tail.Lines], ok *)
| LinesClosed                                     (* [<-t.tail.Lines], not ok *)
| QuitRecv.                                       (* [<-t.quit] *)

(** Body of the [for] loop; the boolean tells whether the case returns. *)
Definition run_body (t : tailer) (ev : RunEvent) (w : World) : World * bool :=
  match ev with
  | Tick st tell =>
    match st with
    | Fail e =>
      (Log Error [VStr "msg";
                  VStr "failed to stat log file being tailed, cannot report size or mark position";
                  VStr (filename t); VStr "error"; VErr e] w, false)
    | Ok fi =>
      let w1 := set_totalBytes (Set_ (path t) (Size fi)) w in
      match markPosition t tell w1 with
      | (w2, Some e) =>
        (Log Error [VStr "msg"; VStr "error getting tail position";
                    VStr "path"; VStr (path t); VStr "error"; VErr e] w2, false)
      | (w2, None) => (w2, false)
      end
    end
  | LineRecv l outcome =>
    let w1 := match Err l with
              | Some e => Log Error [VStr "msg"; VStr "error reading line";
                                     VStr "path"; VStr (path t); VStr "error"; VErr e] w
              | None => w
              end in
    let w2 := set_readLines (Inc (path t)) w1 in
    let w3 := set_readBytes
                (Add (path t) (Z.of_nat (String.length (Text l)) + 1)) w2 in
    match handler t ∅ (Time l) (Text l) outcome w3 with
    | (w4, Some e) =>
      (Log Error [VStr "msg"; VStr "error handling line";
                  VStr "path"; VStr (path t); VStr "error"; VErr e] w4, false)
    | (w4, None) => (w4, false)
    end
  | LinesClosed => (w, true)
  | QuitRecv => (w, true)
  end.

(** The whole loop on a given sequence of events, as far as it gets:
    the boolean tells whether [run] returned. *)
Fixpoint run (t : tailer) (evs : list RunEvent) (w : World) : World * bool :=
  match evs with
  | [] => (w, false)
  | ev :: evs' =>
    match run_body t ev w with
    | (w', true) => (w', true)
    | (w', false) => run t evs' w'
    end
  end.

(** ** The session and its owner, interleaved *)

Record Sys : Type := mkSys { world : World; sess : Session }.

Inductive Choice : Type :=
| CRunStart                        (* [run], up to the creation of the ticker *)
| CRun (ev : RunEvent)             (* one iteration of the loop *)
| CSourceClose                     (* the line source closes [Lines] *)
| CStopMark (tell : result Z)      (* [stop]: [t.markPosition()] and its log *)
| CStopSource (err : option error) (* [stop]: [t.tail.Stop()] *)
| CStopCloseQuit                   (* [stop]: [close(t.quit)] *)
| CStopAwaitDone                   (* [stop]: [<-t.done] *)
| CStopDecr                        (* [stop]: [filesActive.Add(-1.)] *)
| CStopReturn.                     (* [stop]: last log and [return err] *)

(** Which case of the [select] can fire. *)
Definition ready (ev : RunEvent) (ss : Session) : bool :=
  match ev with
  | Tick _ _ => match ticker ss with Ticking => true | _ => false end
  | LineRecv _ _ => match linesCh ss with Open => true | Closed => false end
  | LinesClosed => match linesCh ss with Closed => true | Open => false end
  | QuitRecv => match quit ss with Closed => true | Open => false end
  end.

(** The deferred function of [run]: [positionWait.Stop(); close(t.done)]. *)
Definition run_deferred (ss : Session) : Session :=
  mkSession (quit ss) Closed (linesCh ss) TickerStopped LExited (stopPc ss).

Definition set_stopPc (pc : StopPc) (ss : Session) : Session :=
  mkSession (quit ss) (done ss) (linesCh ss) (ticker ss) (loopPc ss) pc.

Definition step (t : tailer) (c : Choice) (s : Sys) : option Sys :=
  let w := world s in
  let ss := sess s in
  match c with
  | CRunStart =>
    match loopPc ss with
    | LSpawned =>
      Some (mkSys (Log Info [VStr "msg"; VStr "start tailing file";
                             VStr "path"; VStr (path t)] w)
                  (mkSession (quit ss) (done ss) (linesCh ss) Ticking LSelect
                             (stopPc ss)))
    | _ => None
    end
  | CRun ev =>
    match loopPc ss with
    | LSelect =>
      if ready ev ss then
        match run_body t ev w with
        | (w', true) => Some (mkSys w' (run_deferred ss))
        | (w', false) => Some (mkSys w' ss)
        end
      else None
    | _ => None
    end
  | CSourceClose =>
    match linesCh ss with
    | Open => Some (mkSys w (mkSession (quit ss) (done ss) Closed (ticker ss)
                                       (loopPc ss) (stopPc ss)))
    | Closed => None
    end
  | CStopMark tell =>
    match stopPc ss with
    | SIdle =>
      let w' := match markPosition t tell w with
                | (w1, Some e) =>
                  Log Error [VStr "msg"; VStr "error getting tail position";
                             VStr "path"; VStr (path t); VStr "error"; VErr e] w1
                | (w1, None) => w1
                end in
      Some (mkSys w' (set_stopPc SMarked ss))
    | _ => None
    end
  | CStopSource err =>
    match stopPc ss with
    | SMarked => Some (mkSys w (set_stopPc (SSourceStopped err) ss))
    | _ => None
    end
  | CStopCloseQuit =>
    match stopPc ss with
    | SSourceStopped err =>
      Some (mkSys w (mkSession Closed (done ss) (linesCh ss) (ticker ss)
                               (loopPc ss) (SQuitClosed err)))
    | _ => None
    end
  | CStopAwaitDone =>
    match stopPc ss, done ss with
    | SQuitClosed err, Closed => Some (mkSys w (set_stopPc (SJoined err) ss))
    | _, _ => None
    end
  | CStopDecr =>
    match stopPc ss with
    | SJoined err =>
      Some (mkSys (set_filesActive (fun a => a + -1) w)
                  (set_stopPc (SDecremented err) ss))
    | _ => None
    end
  | CStopReturn =>
    match stopPc ss with
    | SDecremented err =>
      Some (mkSys (Log Info [VStr "msg"; VStr "stopped tailing file";
                             VStr "path"; VStr (path t)] w)
                  (set_stopPc (SReturned err) ss))
    | _ => None
    end
  end.

(** A schedule, executed as long as every choice is enabled. *)
Fixpoint exec (t : tailer) (cs : list Choice) (s : Sys) : option Sys :=
  match cs with
  | [] => Some s
  | c :: cs' =>
    match step t c s with
    | Some s' => exec t cs' s'
    | None => None
    end
  end.

(** The choices of a schedule that belong to [stop]. *)
Definition of_stop (c : Choice) : bool :=
  match c with
  | CRunStart | CRun _ | CSourceClose => false
  | _ => true
  end.

End Session.

(** ** Vocabulary of the statements *)

(** How [newTailer] resolves [p] under [os]: the file it will read and
    the re-open flag. *)
Definition resolves (os : OS) (p filename : string) (reOpen : bool) : Prop :=
  ∃ fi, Lstat os p = Ok fi ∧
        if isSymlink fi
        then Readlink os p = Ok filename ∧ reOpen = true
        else filename = p ∧ reOpen = false.

(** Bytes of file content accounted for by the calls that reached the
    downstream handler: each text and the newline that ended it. *)
Fixpoint delivered (calls : list (LabelSet * Z * string)) : Z :=
  match calls with
  | [] => 0
  | (_, _, text) :: calls' => Z.of_nat (String.length text) + 1 + delivered calls'
  end.

(** The offset that [Tell] reports during a choice, if the choice calls it. *)
Definition tell_of (c : Choice) : option Z :=
  match c with
  | CRun (Tick (Ok _) (Ok pos)) => Some pos
  | CStopMark (Ok pos) => Some pos
  | _ => None
  end.

(** The configuration [newTailer] opens the line source with. *)
Definition opening (w : World) (filename : string) (reOpen : bool) : TailConfig :=
  mkTailConfig true reOpen (mkSeekInfo (Get (positions w) filename) 0).

(** A session whose handler is the owner's, wrapped to add [ls]. *)
Definition wired (ls : LabelSet) (t : tailer) : Prop :=
  handler t = AddLabelsMiddleware ls downstream.

(** The call a choice makes to the downstream handler, if any. *)
Definition call_of (ls : LabelSet) (c : Choice) : list (LabelSet * Z * string) :=
  match c with
  | CRun (LineRecv l _) => [(ls, Time l, Text l)]
  | _ => []
  end.

(** The two cases of the [select] that return. *)
Definition is_exit (c : Choice) : bool :=
  match c with
  | CRun LinesClosed | CRun QuitRecv => true
  | _ => false
  end.

Definition loop_inv (cs : list Choice) (ss : Session) : Prop :=
  match loopPc ss with
  | LSpawned => ticker ss = NoTicker ∧ done ss = Open ∧ existsb is_exit cs = false
  | LSelect => ticker ss = Ticking ∧ done ss = Open ∧ existsb is_exit cs = false
  | LExited => ticker ss = TickerStopped ∧ done ss = Closed ∧ existsb is_exit cs = true
  end.

(** The choices [stop] has made when it stands at a given point. *)
Definition stop_prefix (pc : StopPc) (tr : list Choice) : Prop :=
  match pc with
  | SIdle => tr = []
  | SMarked => ∃ tell, tr = [CStopMark tell]
  | SSourceStopped e => ∃ tell, tr = [CStopMark tell; CStopSource e]
  | SQuitClosed e => ∃ tell, tr = [CStopMark tell; CStopSource e; CStopCloseQuit]
  | SJoined e =>
    ∃ tell, tr = [CStopMark tell; CStopSource e; CStopCloseQuit; CStopAwaitDone]
  | SDecremented e =>
    ∃ tell, tr = [CStopMark tell; CStopSource e; CStopCloseQuit; CStopAwaitDone;
                  CStopDecr]
  | SReturned e =>
    ∃ tell, tr = [CStopMark tell; CStopSource e; CStopCloseQuit; CStopAwaitDone;
                  CStopDecr; CStopReturn]
  end.

Definition reach_inv (cs : list Choice) (ss : Session) : Prop :=
  loop_inv cs ss ∧ stop_prefix (stopPc ss) (List.filter of_stop cs).

Definition is_decr (c : Choice) : bool :=
  match c with CStopDecr => true | _ => false end.

Definition stop_choices (tell : result Z) (err : option error) : list Choice :=
  [CStopMark tell; CStopSource err; CStopCloseQuit; CStopAwaitDone; CStopDecr;
   CStopReturn].

(** The store entry of the resolved path is not ahead of the content
    delivered: it is at most the offset the session started from plus the
    bytes of the lines that reached the handler since construction. *)
Definition checkpoint_within (w0 : World) (t : tailer) (w : World) : Prop :=
  Get (positions w) (filename t)
  ≤ Get (positions w0) (filename t)
    + (delivered (handled w) - delivered (handled w0)).

(** Every offset [Tell] reports along the schedule is itself not ahead
    of the content delivered at the time it is reported. *)
Fixpoint tells_within (w0 : World) (t : tailer) (cs : list Choice) (s : Sys)
  : bool :=
  match cs with
  | [] => true
  | c :: cs' =>
    match tell_of c with
    | Some pos =>
      pos <=? Get (positions w0) (filename t)
              + (delivered (handled (world s)) - delivered (handled w0))
    | None => true
    end
    && match step t c s with
       | Some s' => tells_within w0 t cs' s'
       | None => true
       end
  end.

(** ** The call of [stop] taken alone

    [stop] executed from a given state while the goroutine of [run]
    makes no step of its own: it returns, or is left blocked on [done],
    or panics. *)

(** [close(c)]: closing a channel that is already closed panics. *)
Definition close (c : Chan) : option Chan :=
  match c with
  | Open => Some Closed
  | Closed => None
  end.

Inductive Outcome : Type :=
| Returned (err : option error) (s : Sys)   (* [return err] *)
| Blocked (s : Sys)                          (* waiting on [<-t.done] *)
| Panicked (s : Sys).                        (* [close] of a closed channel *)

(** [tell] and [err] are what [t.tail.Tell()] and [t.tail.Stop()] answer. *)
Definition stop (t : tailer) (tell : result Z) (err : option error) (s : Sys)
  : Outcome :=
  let ss := sess s in
  let w1 := match markPosition t tell (world s) with
            | (w', Some e) =>
              Log Error [VStr "msg"; VStr "error getting tail position";
                         VStr "path"; VStr (path t); VStr "error"; VErr e] w'
            | (w', None) => w'
            end in
  match close (quit ss) with
  | None => Panicked (mkSys w1 ss)
  | Some q =>
    let ss1 := mkSession q (done ss) (linesCh ss) (ticker ss) (loopPc ss)
                         (stopPc ss) in
    match done ss with
    | Open => Blocked (mkSys w1 ss1)
    | Closed =>
      let w2 := set_filesActive (fun a => a + -1) w1 in
      Returned err
        (mkSys (Log Info [VStr "msg"; VStr "stopped tailing file";
                          VStr "path"; VStr (path t)] w2) ss1)
    end
  end.

(** ** Further vocabulary *)

(** The offset of the last checkpoint a schedule writes, if it writes one. *)
Definition last_tell (cs : list Choice) : option Z := last (omap tell_of cs).

(** The lines a schedule hands to the loop, in order. *)
Definition lines_of (cs : list Choice) : list Line :=
  flat_map (fun c => match c with CRun (LineRecv l _) => [l] | _ => [] end) cs.

(** The sizes stat reports to the ticks of a schedule, in order. *)
Definition size_of (c : Choice) : option Z :=
  match c with
  | CRun (Tick (Ok fi) _) => Some (Size fi)
  | _ => None
  end.

(** [stop] has executed [close(t.quit)]. *)
Definition quit_closed_by (pc : StopPc) : bool :=
  match pc with
  | SIdle | SMarked | SSourceStopped _ => false
  | _ => true
  end.

(** [stop] has executed [filesActive.Add(-1.)]. *)
Definition decremented (pc : StopPc) : bool :=
  match pc with
  | SDecremented _ | SReturned _ => true
  | _ => false
  end.

(** What goes wrong during one iteration of the loop. *)
Definition failures (ev : RunEvent) : nat :=
  match ev with
  | Tick (Fail _) _ => 1
  | Tick (Ok _) (Fail _) => 1
  | Tick (Ok _) (Ok _) => 0
  | LineRecv l outcome =>
    (match Err l with Some _ => 1 | None => 0 end
     + match outcome with Some _ => 1 | None => 0 end)%nat
  | LinesClosed | QuitRecv => 0
  end.

(** The entries logged at level [Error]. *)
Definition errors (lg : list LogEntry) : list LogEntry :=
  List.filter (fun e => match fst e with Error => true | _ => false end) lg.

(** Choices of the goroutine of [run]. *)
Definition of_run (c : Choice) : bool :=
  match c with
  | CRunStart | CRun _ => true
  | _ => false
  end.

(** A way to bring a call of [stop] to its return from wherever the
    session stands: [stop] goes on up to [close(t.quit)], the loop takes
    the [quit] case, [stop] finishes.  [tell] and [err] are what the line
    source answers if it is still to be asked. *)
Definition stop_to_close (tell : result Z) (err : option error) (pc : StopPc)
  : list Choice :=
  match pc with
  | SIdle => [CStopMark tell; CStopSource err; CStopCloseQuit]
  | SMarked => [CStopSource err; CStopCloseQuit]
  | SSourceStopped _ => [CStopCloseQuit]
  | _ => []
  end.

Definition loop_to_exit (pc : LoopPc) : list Choice :=
  match pc with
  | LSpawned => [CRunStart; CRun QuitRecv]
  | LSelect => [CRun QuitRecv]
  | LExited => []
  end.

Definition stop_after_close (pc : StopPc) : list Choice :=
  match pc with
  | SIdle | SMarked | SSourceStopped _ | SQuitClosed _ =>
    [CStopAwaitDone; CStopDecr; CStopReturn]
  | SJoined _ => [CStopDecr; CStopReturn]
  | SDecremented _ => [CStopReturn]
  | SReturned _ => []
  end.

Definition completion (tell : result Z) (err : option error) (ss : Session)
  : list Choice :=
  stop_to_close tell err (stopPc ss) ++ loop_to_exit (loopPc ss)
  ++ stop_after_close (stopPc ss).

(** Case analysis on an enabled step. *)
Ltac step_cases H :=
  unfold step in H;
  repeat match type of H with
         | context [match ?x with _ => _ end] =>
           let E := fresh "E" in destruct x eqn:E; try discriminate
         end.

(** ** A small concrete setting, used to exercise the statements *)

Definition ex_label : string := "filename".
Definition ex_link : string := "/var/log/current".
Definition ex_file : string := "/var/log/app.log".

Definition ex_os : OS :=
  mkOS (fun p => if String.eqb p ex_link then Ok (mkFileInfo ModeSymlink 0)
                 else if String.eqb p ex_file then Ok (mkFileInfo 420 9)
                 else Fail "no such file or directory")
       (fun p => if String.eqb p ex_link then Ok ex_file
                 else Fail "invalid argument")
       (fun f _ => if String.eqb f "" then Some "empty name" else None).

(** The same system after the link has been pointed at another file. *)
Definition ex_file2 : string := "/var/log/app-2.log".

Definition ex_os_repointed : OS :=
  mkOS (fun p => if String.eqb p ex_link then Ok (mkFileInfo ModeSymlink 0)
                 else Ok (mkFileInfo 420 100))
       (fun p => if String.eqb p ex_link then Ok ex_file2
                 else Fail "invalid argument")
       (fun _ _ => None).

Definition ex_world (store : gmap string Z) : World :=
  mkWorld store ∅ ∅ ∅ 0 [] [] [].

Definition ex_tailer (p : string) (off : Z) (reOpen : bool) : tailer :=
  mkTailer (AddLabelsMiddleware {[ex_label := p]} downstream) p ex_file
           (mkTail ex_file (mkTailConfig true reOpen (mkSeekInfo off 0))).

(** One line, a tick, a line the handler refuses, then the checkpoint
    of [stop]; [Tell] reports 2 and then 5. *)
Definition ex_schedule : list Choice :=
  [CRunStart; CRun (LineRecv (mkLine "a" 1 None) None);
   CRun (Tick (Ok (mkFileInfo 420 2)) (Ok 2));
   CRun (LineRecv (mkLine "bb" 2 None) (Some "refused"));
   CStopMark (Ok 5)].

(** ** Sanity checks of the model on the spec's scenarios *)

Example newTailer_on_file :
  newTailer ex_label ex_os downstream (ex_world {[ex_file := 9]}) ex_file
  = (Ok (ex_tailer ex_file 9 false, fresh),
     mkWorld {[ex_file := 9]} ∅ ∅ ∅ 1 [] [] [ex_file]).
Proof. reflexivity. Qed.

Example newTailer_on_file_cold :
  newTailer ex_label ex_os downstream (ex_world ∅) ex_file
  = (Ok (ex_tailer ex_file 0 false, fresh), mkWorld ∅ ∅ ∅ ∅ 1 [] [] [ex_file]).
Proof. reflexivity. Qed.

Example newTailer_on_link :
  newTailer ex_label ex_os downstream (ex_world ∅) ex_link
  = (Ok (ex_tailer ex_link 0 true, fresh), mkWorld ∅ ∅ ∅ ∅ 1 [] [] [ex_link]).
Proof. reflexivity. Qed.

Example three_lines :
  let evs := [LineRecv (mkLine "a" 1 None) None;
              LineRecv (mkLine "bb" 2 None) None;
              LineRecv (mkLine "ccc" 3 None) None;
              Tick (Ok (mkFileInfo 420 9)) (Ok 9)] in
  let w := fst (run (ex_tailer ex_file 0 false) evs (ex_world ∅)) in
  value (readLines w) ex_file = 3 ∧ value (readBytes w) ex_file = 9 ∧
  map snd (handled w) = ["a"; "bb"; "ccc"] ∧ Get (positions w) ex_file = 9.
Proof. vm_compute. auto. Qed.

(** ** Construction *)

(** Everything a successful construction fixes. *)
Lemma newTailer_Ok_inv lbl os h w p t ss w' :
  newTailer lbl os h w p = (Ok (t, ss), w') →
  ∃ reOpen,
    resolves os p (filename t) reOpen ∧
    TailFile_error os (filename t) (opening w (filename t) reOpen) = None ∧
    t = mkTailer (AddLabelsMiddleware {[lbl := p]} h) p (filename t)
                 (mkTail (filename t) (opening w (filename t) reOpen)) ∧
    ss = fresh ∧
    w' = set_filesActive (fun a => a + 1) (spawn p w).
Proof.
  unfold newTailer, resolves, TailFile, opening.
  destruct (Lstat os p) as [fi|e] eqn:Hl; [|discriminate].
  destruct (isSymlink fi) eqn:Hs.
  - destruct (Readlink os p) as [target|e] eqn:Hr; [|discriminate].
    destruct (TailFile_error os target _) eqn:Ht; [discriminate|].
    intros [= <- <- <-]. exists true. simpl.
    split; [exists fi; rewrite Hs; auto|]. auto.
  - destruct (TailFile_error os p _) eqn:Ht; [discriminate|].
    intros [= <- <- <-]. exists false. simpl.
    split; [exists fi; rewrite Hs; auto|]. auto.
Qed.

(** A failed construction leaves the world as it found it. *)
Lemma newTailer_Fail_inv lbl os h w p e w' :
  newTailer lbl os h w p = (Fail e, w') → w' = w.
Proof.
  unfold newTailer.
  destruct (Lstat os p) as [fi|e0]; [|congruence].
  destruct (isSymlink fi).
  - destruct (Readlink os p) as [target|e1]; [|congruence].
    destruct (TailFile os target _); congruence.
  - destruct (TailFile os p _); congruence.
Qed.

(** C1.  For every path that resolves (to the link target for a
    symbolic link, to itself otherwise) and on which the line source
    opens, construction succeeds, and the line source is opened on the
    resolved path with [Follow] set, seeking from the start of the file
    ([Whence = 0]) to the offset [Get] returns for the resolved path:
    the recorded offset if there is one, zero if there is none. *)
Theorem newTailer_seeks_to_checkpoint lbl os h w p resolved reOpen :
  resolves os p resolved reOpen →
  TailFile_error os resolved (opening w resolved reOpen) = None →
  ∃ t w',
    newTailer lbl os h w p = (Ok (t, fresh), w') ∧
    filename t = resolved ∧
    Filename (tail t) = resolved ∧
    TailFile os resolved (Config (tail t)) = Ok (tail t) ∧
    Follow (Config (tail t)) = true ∧
    Location (Config (tail t)) = mkSeekInfo (Get (positions w) resolved) 0 ∧
    (∀ off, positions w !! resolved = Some off →
            Location (Config (tail t)) = mkSeekInfo off 0) ∧
    (positions w !! resolved = None →
     Location (Config (tail t)) = mkSeekInfo 0 0).
Proof.
  intros (fi & Hl & Hres) Hopen.
  assert (Hnew : newTailer lbl os h w p
                 = (Ok (mkTailer (AddLabelsMiddleware {[lbl := p]} h) p resolved
                                 (mkTail resolved (opening w resolved reOpen)),
                        fresh),
                    set_filesActive (fun a => a + 1) (spawn p w))).
  { unfold newTailer, TailFile. rewrite Hl. unfold opening in Hopen.
    destruct (isSymlink fi).
    - destruct Hres as [-> ->]. by rewrite Hopen.
    - destruct Hres as [-> ->]. by rewrite Hopen. }
  eexists _, _. split; [exact Hnew|]. cbn [filename tail Filename Config].
  unfold TailFile. rewrite Hopen. unfold opening, Get.
  cbn [Follow Location]. split_and!; auto.
  - by intros off ->.
  - by intros ->.
Qed.

Lemma newTailer_seeks_to_checkpoint_witness :
  ∃ t w',
    newTailer ex_label ex_os downstream (ex_world {[ex_file := 9]}) ex_file
    = (Ok (t, fresh), w') ∧
    Location (Config (tail t)) = mkSeekInfo 9 0.
Proof.
  destruct (newTailer_seeks_to_checkpoint ex_label ex_os downstream
              (ex_world {[ex_file := 9]}) ex_file ex_file false)
    as (t & w' & Hn & _ & _ & _ & _ & _ & Hsome & _).
  - exists (mkFileInfo 420 9). split; [reflexivity|]. split; reflexivity.
  - reflexivity.
  - exists t, w'. split; [exact Hn|]. apply (Hsome 9). reflexivity.
Defined.

(** C8.  If the initial stat fails, or the path is a symbolic link whose
    resolution fails, or the line source refuses to open, then
    construction returns that error, and the world is the one it was
    called in: no event loop was started and [filesActive] is unchanged. *)
Theorem newTailer_failure lbl os h w p e :
  Lstat os p = Fail e ∨
  (∃ fi, Lstat os p = Ok fi ∧ isSymlink fi = true ∧ Readlink os p = Fail e) ∨
  (∃ filename reOpen, resolves os p filename reOpen ∧
     TailFile os filename (opening w filename reOpen) = Fail e) →
  ∃ w', newTailer lbl os h w p = (Fail e, w') ∧
        w' = w ∧ goroutines w' = goroutines w ∧ filesActive w' = filesActive w.
Proof.
  intros H. exists w. split; [|auto]. unfold newTailer.
  destruct H as [Hl | [(fi & Hl & Hs & Hr) | (f & r & (fi & Hl & Hres) & Ht)]].
  - by rewrite Hl.
  - by rewrite Hl, Hs, Hr.
  - rewrite Hl. unfold opening in Ht. destruct (isSymlink fi).
    + destruct Hres as [-> ->]. by rewrite Ht.
    + destruct Hres as [-> ->]. by rewrite Ht.
Qed.

Lemma newTailer_failure_witness :
  ∃ w', newTailer ex_label ex_os downstream (ex_world ∅) "/var/log/gone"
        = (Fail "no such file or directory", w') ∧
        w' = ex_world ∅ ∧ goroutines w' = [] ∧ filesActive w' = 0.
Proof.
  apply (newTailer_failure ex_label ex_os downstream (ex_world ∅) "/var/log/gone").
  left. reflexivity.
Defined.

(** ** Checkpointing *)

(** C6.  [markPosition] stores the offset [Tell] reports under the
    resolved path and returns no error; when [Tell] fails it returns
    that error and the world, the store included, is unchanged. *)
Theorem markPosition_spec (t : tailer) (w : World) :
  (∀ pos, let r := markPosition t (Ok pos) w in
          snd r = None ∧
          positions (fst r) = Put (positions w) (filename t) pos ∧
          Get (positions (fst r)) (filename t) = pos) ∧
  (∀ e, markPosition t (Fail e) w = (w, Some e)).
Proof.
  split; [|reflexivity].
  intros pos; simpl. repeat split.
  unfold Get, Put. by rewrite lookup_insert_eq.
Qed.

(** C7 as stated does not hold for a symbolic link: the entry removed is
    the one of the file the session read, and a session constructed next
    on the same requested path reads the entry of the file the link
    points to by then.  Here the link pointed to app.log (entry 9), and
    after [cleanup] it points to app-2.log (entry 100): the new session
    is opened at offset 100. *)
Lemma cleanup_then_repointed_link :
  newTailer ex_label ex_os downstream
            (ex_world {[ex_file := 9; ex_file2 := 100]}) ex_link
  = (Ok (ex_tailer ex_link 9 true, fresh),
     mkWorld {[ex_file := 9; ex_file2 := 100]} ∅ ∅ ∅ 1 [] [] [ex_link]) ∧
  positions (cleanup (ex_tailer ex_link 9 true)
               (mkWorld {[ex_file := 9; ex_file2 := 100]} ∅ ∅ ∅ 1 [] [] [ex_link]))
    !! ex_file = None ∧
  ∃ t2 w2,
    newTailer ex_label ex_os_repointed downstream
              (cleanup (ex_tailer ex_link 9 true)
                 (mkWorld {[ex_file := 9; ex_file2 := 100]} ∅ ∅ ∅ 1 [] []
                          [ex_link]))
              ex_link
    = (Ok (t2, fresh), w2) ∧
    path t2 = ex_link ∧
    Location (Config (tail t2)) = mkSeekInfo 100 0 ∧
    Location (Config (tail t2)) ≠ mkSeekInfo 0 0.
Proof.
  split; [reflexivity|]. split; [reflexivity|].
  eexists _, _. split; [reflexivity|]. split; [reflexivity|].
  split; [reflexivity|]. discriminate.
Qed.

(** C7, amended.  [cleanup] removes the entry of the file the session
    read, so the store then answers zero for that file; and on any later
    state of the file system in which the requested path of the session
    still resolves to that file (always so for a path that is not a
    symbolic link) and the line source opens, a session constructed on
    the same requested path right after [cleanup] exists, reads the same
    file and is opened at offset zero. *)
Theorem cleanup_then_fresh_session lbl os h w0 p t ss w1 w os' h' reOpen' :
  newTailer lbl os h w0 p = (Ok (t, ss), w1) →
  resolves os' p (filename t) reOpen' →
  TailFile_error os' (filename t) (opening (cleanup t w) (filename t) reOpen')
  = None →
  positions (cleanup t w) !! filename t = None ∧
  Get (positions (cleanup t w)) (filename t) = 0 ∧
  ∃ t2 w2, newTailer lbl os' h' (cleanup t w) p = (Ok (t2, fresh), w2) ∧
           path t2 = path t ∧
           filename t2 = filename t ∧
           Location (Config (tail t2)) = mkSeekInfo 0 0.
Proof.
  intros Hn Hres Hopen.
  assert (Hgone : positions (cleanup t w) !! filename t = None)
    by apply lookup_delete_eq.
  assert (Hzero : Get (positions (cleanup t w)) (filename t) = 0)
    by (unfold Get; by rewrite Hgone).
  assert (Hp : path t = p).
  { destruct (newTailer_Ok_inv _ _ _ _ _ _ _ _ Hn) as (r & _ & _ & Ht & _).
    by rewrite Ht. }
  split_and!; auto.
  assert (Hnew : newTailer lbl os' h' (cleanup t w) p
                 = (Ok (mkTailer (AddLabelsMiddleware {[lbl := p]} h') p (filename t)
                                 (mkTail (filename t)
                                    (opening (cleanup t w) (filename t) reOpen')),
                        fresh),
                    set_filesActive (fun a => a + 1) (spawn p (cleanup t w)))).
  { destruct Hres as (fi & Hl & Hres).
    unfold newTailer, TailFile. rewrite Hl. unfold opening in Hopen.
    destruct (isSymlink fi); destruct Hres as [Hr ->].
    - rewrite Hr. by rewrite Hopen.
    - rewrite <- Hr in *. by rewrite Hopen. }
  eexists _, _. split; [exact Hnew|]. cbn [path filename tail Config].
  unfold opening. cbn [Location]. by rewrite Hzero.
Qed.

Lemma cleanup_then_fresh_session_witness :
  ∃ t2 w2,
    newTailer ex_label ex_os downstream
              (cleanup (ex_tailer ex_link 9 true)
                 (mkWorld {[ex_file := 9; ex_file2 := 100]} ∅ ∅ ∅ 1 [] []
                          [ex_link]))
              ex_link
    = (Ok (t2, fresh), w2) ∧
    Location (Config (tail t2)) = mkSeekInfo 0 0.
Proof.
  destruct (cleanup_then_fresh_session ex_label ex_os downstream
              (ex_world {[ex_file := 9; ex_file2 := 100]}) ex_link
              (ex_tailer ex_link 9 true) fresh
              (mkWorld {[ex_file := 9; ex_file2 := 100]} ∅ ∅ ∅ 1 [] [] [ex_link])
              (mkWorld {[ex_file := 9; ex_file2 := 100]} ∅ ∅ ∅ 1 [] [] [ex_link])
              ex_os downstream true)
    as (_ & _ & t2 & w2 & Hn & _ & _ & Hloc).
  - reflexivity.
  - exists (mkFileInfo ModeSymlink 0). split; [reflexivity|]. split; reflexivity.
  - reflexivity.
  - exists t2, w2. split; [exact Hn | exact Hloc].
Defined.

(** ** Effects of one step *)

Lemma newTailer_wired lbl os w p t ss w' :
  newTailer lbl os downstream w p = (Ok (t, ss), w') →
  wired {[lbl := p]} t ∧ path t = p.
Proof.
  intros H. destruct (newTailer_Ok_inv _ _ _ _ _ _ _ _ H) as (r & _ & _ & Ht & _).
  rewrite Ht. split; reflexivity.
Qed.

(** One line through the loop body of a wired session. *)
Lemma run_body_line ls t l outcome w :
  wired ls t →
  ∃ w', run_body t (LineRecv l outcome) w = (w', false) ∧
    positions w' = positions w ∧
    totalBytes w' = totalBytes w ∧
    filesActive w' = filesActive w ∧
    goroutines w' = goroutines w ∧
    readLines w' = Inc (path t) (readLines w) ∧
    readBytes w' = Add (path t) (Z.of_nat (String.length (Text l)) + 1) (readBytes w) ∧
    handled w' = handled w ++ [(ls, Time l, Text l)].
Proof.
  intros Hw. unfold run_body. rewrite Hw.
  unfold AddLabelsMiddleware, Merge, downstream. rewrite (left_id_L ∅ (∪)).
  destruct outcome, (Err l); eexists; (split; [reflexivity|]); simpl; auto 10.
Qed.

(** One tick through the loop body. *)
Lemma run_body_tick t st tell w :
  ∃ w', run_body t (Tick st tell) w = (w', false) ∧
    handled w' = handled w ∧
    filesActive w' = filesActive w ∧
    readLines w' = readLines w ∧
    readBytes w' = readBytes w ∧
    positions w' = match tell_of (CRun (Tick st tell)) with
                   | Some pos => Put (positions w) (filename t) pos
                   | None => positions w
                   end ∧
    totalBytes w' = match st with
                    | Ok fi => Set_ (path t) (Size fi) (totalBytes w)
                    | Fail _ => totalBytes w
                    end.
Proof.
  destruct st as [fi|e]; [destruct tell as [pos|e]|];
    eexists; (split; [reflexivity|]); simpl; auto 10.
Qed.

(** What a step of a wired session does to the store, to the calls
    received downstream and to [filesActive]. *)
Lemma step_frame ls t c s s' :
  wired ls t →
  step t c s = Some s' →
  handled (world s') = handled (world s) ++ call_of ls c ∧
  positions (world s') = match tell_of c with
                         | Some pos => Put (positions (world s)) (filename t) pos
                         | None => positions (world s)
                         end ∧
  filesActive (world s') = filesActive (world s)
                           + match c with CStopDecr => -1 | _ => 0 end.
Proof.
  intros Hw H. destruct c as [|ev| |tell|err| | | |].
  - step_cases H. injection H as <-. simpl. rewrite app_nil_r. split_and!; auto; lia.
  - destruct ev as [st tell|l outcome| |].
    + destruct (run_body_tick t st tell (world s)) as (w' & Hb & Hh & Hf & _ & _ & Hp & _).
      unfold step in H. rewrite Hb in H.
      destruct (loopPc (sess s)); try discriminate.
      destruct (ready _ _); try discriminate. injection H as <-. simpl.
      rewrite Hh, Hf, app_nil_r. split_and!; auto; lia.
    + destruct (run_body_line ls t l outcome (world s) Hw)
        as (w' & Hb & Hp & _ & Hf & _ & _ & _ & Hh).
      unfold step in H. rewrite Hb in H.
      destruct (loopPc (sess s)); try discriminate.
      destruct (ready _ _); try discriminate. injection H as <-. simpl.
      rewrite Hh, Hf, Hp. split_and!; auto; lia.
    + unfold step in H. destruct (loopPc (sess s)); try discriminate.
      destruct (ready _ _); try discriminate. simpl in H. injection H as <-. simpl.
      rewrite app_nil_r. split_and!; auto; lia.
    + unfold step in H. destruct (loopPc (sess s)); try discriminate.
      destruct (ready _ _); try discriminate. simpl in H. injection H as <-. simpl.
      rewrite app_nil_r. split_and!; auto; lia.
  - step_cases H. injection H as <-. simpl. rewrite app_nil_r. split_and!; auto; lia.
  - unfold step in H. destruct (stopPc (sess s)); try discriminate.
    injection H as <-. destruct tell as [pos|e]; simpl;
      rewrite app_nil_r; split_and!; auto; lia.
  - step_cases H. injection H as <-. simpl. rewrite app_nil_r. split_and!; auto; lia.
  - step_cases H. injection H as <-. simpl. rewrite app_nil_r. split_and!; auto; lia.
  - step_cases H. injection H as <-. simpl. rewrite app_nil_r. split_and!; auto; lia.
  - step_cases H. injection H as <-. simpl. rewrite app_nil_r. split_and!; auto; lia.
  - step_cases H. injection H as <-. simpl. rewrite app_nil_r. split_and!; auto; lia.
Qed.

(** ** Schedules *)

Lemma exec_app t cs1 cs2 s :
  exec t (cs1 ++ cs2) s = exec t cs1 s ≫= exec t cs2.
Proof.
  revert s. induction cs1 as [|c cs1 IH]; intros s; simpl; [reflexivity|].
  destruct (step t c s); simpl; auto.
Qed.

Lemma exec_snoc t cs c s s' :
  exec t (cs ++ [c]) s = Some s' ↔
  ∃ s1, exec t cs s = Some s1 ∧ step t c s1 = Some s'.
Proof.
  rewrite exec_app. destruct (exec t cs s) as [s1|]; simpl.
  - destruct (step t c s1) as [s2|] eqn:Hs; split.
    + intros [= <-]. eauto.
    + intros (? & [= <-] & H). congruence.
    + discriminate.
    + intros (? & [= <-] & H). congruence.
  - split; [discriminate|]. intros (? & ? & _). discriminate.
Qed.

(** A choice of a schedule that ran was enabled where it stood. *)
Lemma exec_split t cs1 c cs2 s s' :
  exec t (cs1 ++ c :: cs2) s = Some s' →
  ∃ s1 s2, exec t cs1 s = Some s1 ∧ step t c s1 = Some s2 ∧
           exec t cs2 s2 = Some s'.
Proof.
  rewrite exec_app. destruct (exec t cs1 s) as [s1|]; simpl; [|discriminate].
  destruct (step t c s1) as [s2|] eqn:Hs; [|discriminate]. eauto.
Qed.

(** ** Where the loop and [stop] stand along a schedule *)

Lemma run_body_exit t ev w :
  snd (run_body t ev w) = is_exit (CRun ev).
Proof.
  destruct ev as [st tell|l outcome| |]; simpl; auto.
  - destruct st; [destruct tell|]; reflexivity.
  - destruct (handler t _ _ _ _ _) as [w4 [e|]]; reflexivity.
Qed.

Lemma step_reach_inv t cs c s s' :
  reach_inv cs (sess s) →
  step t c s = Some s' →
  reach_inv (cs ++ [c]) (sess s').
Proof.
  unfold reach_inv, loop_inv. intros [Hl Hs] H.
  rewrite existsb_app, List.filter_app. cbn [existsb List.filter].
  destruct c as [|ev| |tell|err| | | |].
  - step_cases H. injection H as <-. simpl in *.
    rewrite orb_false_r, app_nil_r. tauto.
  - pose proof (run_body_exit t ev (world s)) as Hx.
    unfold step in H. destruct (loopPc (sess s)) eqn:E; try discriminate.
    destruct (ready ev (sess s)); try discriminate.
    destruct (run_body t ev (world s)) as [w' b]. cbn [snd] in Hx. subst b.
    cbn [of_stop]. rewrite app_nil_r. destruct Hl as (Ht & Hd & He). rewrite He.
    destruct (is_exit (CRun ev)); injection H as <-; simpl; rewrite ?E; auto.
  - step_cases H. injection H as <-. simpl in *.
    rewrite orb_false_r, app_nil_r. auto.
  - step_cases H; injection H as <-; simpl in *;
      rewrite orb_false_r, Hs; split; eauto.
  - step_cases H. injection H as <-. simpl in *.
    rewrite orb_false_r. destruct Hs as [tell ->]. split; eauto.
  - step_cases H. injection H as <-. simpl in *.
    rewrite orb_false_r. destruct Hs as [tell ->]. split; eauto.
  - step_cases H. injection H as <-. simpl in *.
    rewrite orb_false_r. destruct Hs as [tell ->]. split; eauto.
    by rewrite E0.
  - step_cases H. injection H as <-. simpl in *.
    rewrite orb_false_r. destruct Hs as [tell ->]. split; eauto.
  - step_cases H. injection H as <-. simpl in *.
    rewrite orb_false_r. destruct Hs as [tell ->]. split; eauto.
Qed.

Lemma exec_reach_inv t cs w s :
  exec t cs (mkSys w fresh) = Some s → reach_inv cs (sess s).
Proof.
  revert s. induction cs as [|c cs IH] using rev_ind; intros s H.
  - injection H as <-. repeat split.
  - apply exec_snoc in H as (s1 & H1 & H2).
    eapply step_reach_inv; eauto.
Qed.

(** ** What a schedule forwards and stores *)

Lemma exec_handled ls t cs s s' :
  wired ls t →
  exec t cs s = Some s' →
  handled (world s') = handled (world s) ++ flat_map (call_of ls) cs.
Proof.
  intros Hw. revert s. induction cs as [|c cs IH]; intros s H; simpl in *.
  - injection H as <-. by rewrite app_nil_r.
  - destruct (step t c s) as [s1|] eqn:Hs; [|discriminate].
    destruct (step_frame _ _ _ _ _ Hw Hs) as (Hh & _ & _).
    rewrite (IH _ H), Hh. by rewrite <- app_assoc.
Qed.

Lemma exec_filesActive ls t cs s s' :
  wired ls t →
  exec t cs s = Some s' →
  filesActive (world s')
  = filesActive (world s) - Z.of_nat (length (List.filter is_decr cs)).
Proof.
  intros Hw. revert s. induction cs as [|c cs IH]; intros s H; simpl in *.
  - injection H as <-. lia.
  - destruct (step t c s) as [s1|] eqn:Hs; [|discriminate].
    destruct (step_frame _ _ _ _ _ Hw Hs) as (_ & _ & Hf).
    rewrite (IH _ H), Hf. destruct c; simpl; lia.
Qed.

Lemma filter_decr_of_stop cs :
  List.filter is_decr (List.filter of_stop cs) = List.filter is_decr cs.
Proof.
  induction cs as [|c cs IH]; simpl; [reflexivity|].
  destruct c; simpl; rewrite ?IH; reflexivity.
Qed.

Lemma delivered_app a b : delivered (a ++ b) = delivered a + delivered b.
Proof.
  induction a as [|[[ls tm] text] a IH]; simpl; [reflexivity|]. rewrite IH. lia.
Qed.

Lemma delivered_nonneg a : 0 ≤ delivered a.
Proof. induction a as [|[[ls tm] text] a IH]; simpl; lia. Qed.

Lemma value_Add lbl d m : value (Add lbl d m) lbl = value m lbl + d.
Proof. unfold value at 1, Add. by rewrite lookup_insert_eq. Qed.

(** ** The event loop *)

(** C2.  In a session constructed on [p], every line the loop receives
    (with or without a read error, the handler succeeding or failing)
    adds exactly 1 to [readLines] of [p] and the length of its text plus
    one to [readBytes] of [p], reaches the downstream handler with the
    line's timestamp and text, and leaves the loop running. *)
Theorem line_accounting lbl os w0 p t ss w1 s l outcome s' :
  newTailer lbl os downstream w0 p = (Ok (t, ss), w1) →
  step t (CRun (LineRecv l outcome)) s = Some s' →
  value (readLines (world s')) p = value (readLines (world s)) p + 1 ∧
  value (readBytes (world s')) p
  = value (readBytes (world s)) p + (Z.of_nat (String.length (Text l)) + 1) ∧
  handled (world s') = handled (world s) ++ [({[lbl := p]}, Time l, Text l)] ∧
  loopPc (sess s') = LSelect.
Proof.
  intros Hn H. destruct (newTailer_wired _ _ _ _ _ _ _ Hn) as [Hw Hp].
  destruct (run_body_line _ t l outcome (world s) Hw)
    as (w' & Hb & _ & _ & _ & _ & Hrl & Hrb & Hh).
  unfold step in H. rewrite Hb in H.
  destruct (loopPc (sess s)) eqn:E; try discriminate.
  destruct (ready _ _); try discriminate. injection H as <-. simpl.
  rewrite Hrl, Hrb, Hh, Hp. unfold Inc. rewrite !value_Add. auto.
Qed.

Lemma line_accounting_witness :
  ∃ s', step (ex_tailer ex_file 0 false)
             (CRun (LineRecv (mkLine "ccc" 3 (Some "short read")) (Some "refused")))
             (mkSys (ex_world ∅) (mkSession Open Open Open Ticking LSelect SIdle))
        = Some s' ∧
        value (readLines (world s')) ex_file = 0 + 1 ∧
        value (readBytes (world s')) ex_file = 0 + (3 + 1).
Proof.
  eexists. split; [reflexivity|].
  pose proof (line_accounting ex_label ex_os (ex_world ∅) ex_file _ _ _
                (mkSys (ex_world ∅) (mkSession Open Open Open Ticking LSelect SIdle))
                (mkLine "ccc" 3 (Some "short read")) (Some "refused") _
                newTailer_on_file_cold eq_refl) as (H1 & H2 & _).
  split; [exact H1 | exact H2].
Defined.

(** C10.  On a tick whose stat fails, [totalBytes] and the store are
    left as they were; on a tick whose stat succeeds and whose offset
    read fails, [totalBytes] of the requested path is set to the size
    stat reported while the store is left as it was. *)
Theorem tick_frame (t : tailer) (w : World) :
  (∀ e tell, totalBytes (fst (run_body t (Tick (Fail e) tell) w)) = totalBytes w ∧
             positions (fst (run_body t (Tick (Fail e) tell) w)) = positions w) ∧
  (∀ fi e, totalBytes (fst (run_body t (Tick (Ok fi) (Fail e)) w))
           = Set_ (path t) (Size fi) (totalBytes w) ∧
           value (totalBytes (fst (run_body t (Tick (Ok fi) (Fail e)) w))) (path t)
           = Size fi ∧
           positions (fst (run_body t (Tick (Ok fi) (Fail e)) w)) = positions w).
Proof.
  split; [intros e tell; split; reflexivity|].
  intros fi e; simpl. repeat split.
  unfold value, Set_. by rewrite lookup_insert_eq.
Qed.

(** C9.  From any point a session has reached with its loop in the
    [select]: a step ends the loop exactly when it is the receipt of the
    closing of [Lines] (the channel being closed) or of [quit] (the
    channel being closed); a step that ends the loop leaves the ticker
    stopped and [done] closed; any other step leaves the loop in the
    [select]; and a tick (whatever stat and [Tell] answer) or a line
    (whatever its read error and the handler's outcome) is taken and
    leaves the loop in the [select]. *)
Theorem run_exit_paths (t : tailer) w cs s :
  exec t cs (mkSys w fresh) = Some s →
  loopPc (sess s) = LSelect →
  (∀ c s', step t c s = Some s' →
     (loopPc (sess s') = LExited ↔
        (c = CRun LinesClosed ∧ linesCh (sess s) = Closed) ∨
        (c = CRun QuitRecv ∧ quit (sess s) = Closed)) ∧
     (loopPc (sess s') = LExited →
        ticker (sess s') = TickerStopped ∧ done (sess s') = Closed) ∧
     (loopPc (sess s') ≠ LExited → loopPc (sess s') = LSelect)) ∧
  (∀ st tell, ∃ s', step t (CRun (Tick st tell)) s = Some s' ∧
                    loopPc (sess s') = LSelect) ∧
  (∀ l outcome, linesCh (sess s) = Open →
                ∃ s', step t (CRun (LineRecv l outcome)) s = Some s' ∧
                      loopPc (sess s') = LSelect).
Proof.
  intros Hex Hsel. destruct (exec_reach_inv _ _ _ _ Hex) as [Hl _].
  unfold loop_inv in Hl. rewrite Hsel in Hl. destruct Hl as (Htk & Hdn & _).
  split_and!.
  - intros c s' H. destruct c as [|ev| |tell|err| | | |].
    2: { pose proof (run_body_exit t ev (world s)) as Hx.
         unfold step in H. rewrite Hsel in H.
         destruct (ready ev (sess s)) eqn:Hr; try discriminate.
         destruct (run_body t ev (world s)) as [w' b]. cbn [snd] in Hx. subst b.
         destruct ev as [st tell|l outcome| |]; cbn [is_exit] in H;
           injection H as <-; simpl; rewrite ?Hsel;
           (split_and!; [split|..]; try (intros; congruence); auto).
         - intros [[? _]|[? _]]; congruence.
         - intros [[? _]|[? _]]; congruence.
         - intros _. left. split; auto. simpl in Hr.
           by destruct (linesCh (sess s)).
         - intros _. right. split; auto. simpl in Hr.
           by destruct (quit (sess s)). }
    all: step_cases H; injection H as <-; simpl; rewrite ?Hsel;
      (split_and!; [split|..]; try (intros; congruence); auto);
      intros [[? _]|[? _]]; congruence.
  - intros st tell.
    destruct (run_body_tick t st tell (world s)) as (w' & Hb & _).
    exists (mkSys w' (sess s)). unfold step. rewrite Hsel. simpl ready.
    rewrite Htk, Hb. auto.
  - intros l outcome Hopen.
    pose proof (run_body_exit t (LineRecv l outcome) (world s)) as Hx.
    destruct (run_body t (LineRecv l outcome) (world s)) as [w' b] eqn:Hb.
    cbn in Hx. subst b.
    exists (mkSys w' (sess s)). unfold step. rewrite Hsel. simpl ready.
    rewrite Hopen, Hb. auto.
Qed.

Lemma run_exit_paths_witness :
  ∃ s', step (ex_tailer ex_file 0 false)
             (CRun (Tick (Fail "no such file or directory") (Fail "file closed")))
             (mkSys (Log Info [VStr "msg"; VStr "start tailing file";
                               VStr "path"; VStr ex_file] (ex_world ∅))
                    (mkSession Open Open Open Ticking LSelect SIdle))
        = Some s' ∧ loopPc (sess s') = LSelect.
Proof.
  refine (proj1 (proj2 (run_exit_paths (ex_tailer ex_file 0 false) (ex_world ∅)
                          [CRunStart] _ eq_refl eq_refl)) _ _).
Defined.

(** ** stop *)

(** What a step does to the channels and to the place [stop] stands at. *)
Lemma step_channels t c s s' :
  step t c s = Some s' →
  quit (sess s')
  = match c with CStopCloseQuit => Closed | _ => quit (sess s) end ∧
  linesCh (sess s')
  = match c with CSourceClose => Closed | _ => linesCh (sess s) end ∧
  quit_closed_by (stopPc (sess s'))
  = match c with
    | CStopCloseQuit => true
    | _ => quit_closed_by (stopPc (sess s))
    end ∧
  (of_stop c = false → stopPc (sess s') = stopPc (sess s)) ∧
  (of_run c = false → loopPc (sess s') = loopPc (sess s)).
Proof.
  intros H. destruct c as [|ev| |tell|err| | | |].
  2: { unfold step in H. destruct (loopPc (sess s)); try discriminate.
       destruct (ready _ _); try discriminate.
       destruct (run_body t ev (world s)) as [w' []]; injection H as <-;
         simpl; split_and!; auto; discriminate. }
  3: { unfold step in H. destruct (stopPc (sess s)) eqn:E; try discriminate.
       injection H as <-. simpl. split_and!; auto; discriminate. }
  all: step_cases H; injection H as <-; simpl;
    split_and!; auto; discriminate.
Qed.

(** ** Where the channels stand along a schedule *)

Lemma exec_channels t cs w s :
  exec t cs (mkSys w fresh) = Some s →
  quit (sess s) = (if quit_closed_by (stopPc (sess s)) then Closed else Open) ∧
  (quit (sess s) = Closed → In CStopCloseQuit cs) ∧
  (linesCh (sess s) = Closed → In CSourceClose cs).
Proof.
  revert s. induction cs as [|c cs IH] using rev_ind; intros s H.
  - injection H as <-. simpl. split_and!; auto; discriminate.
  - apply exec_snoc in H as (s1 & H1 & H2).
    destruct (IH _ H1) as (Hq & Hqc & Hlc).
    destruct (step_channels _ _ _ _ H2) as (Hq' & Hl' & Hp' & _).
    rewrite Hq', Hl', Hp'. setoid_rewrite in_app_iff.
    destruct c; simpl; split_and!; auto; intros; discriminate.
Qed.

(** A choice of a schedule that ran, with the states around it. *)
Lemma exec_at t cs c s0 s :
  exec t cs s0 = Some s →
  In c cs →
  ∃ pre post sa sb, cs = pre ++ c :: post ∧
    exec t pre s0 = Some sa ∧ step t c sa = Some sb.
Proof.
  intros Hex Hin. destruct (in_split _ _ Hin) as (pre & post & ->).
  destruct (exec_split _ _ _ _ _ _ Hex) as (sa & sb & H1 & H2 & _).
  exists pre, post, sa, sb. auto.
Qed.

(** C3.  In every schedule of a constructed session in which [stop] has
    returned [err]:
    - the choices of [stop] are, in this order, the checkpoint attempt,
      the stop of the line source answering [err], the closing of
      [quit], the receipt on [done], the decrement of [filesActive] and
      the return;
    - the checkpoint attempt comes before any other step of [stop] and
      does what [markPosition] does with the answer of [Tell]: on an
      offset it stores that offset under the resolved path, on a failure
      it leaves the store as it is and logs the error; either way [stop]
      goes on;
    - [quit] is open before the closing step and closed after it;
    - the receipt on [done] happened at a point where the loop had
      already taken one of its returning cases and closed [done];
    - the decrement takes one from [filesActive], which ends at its
      value before construction.
    Moreover such a schedule exists whatever the checkpoint attempt and
    the line source answer. *)
Theorem stop_sequence lbl os w0 p t ss w1 cs s err :
  newTailer lbl os downstream w0 p = (Ok (t, ss), w1) →
  exec t cs (mkSys w1 ss) = Some s →
  stopPc (sess s) = SReturned err →
  (∃ tell, List.filter of_stop cs = stop_choices tell err ∧
     ∃ pre post sa sb, cs = pre ++ CStopMark tell :: post ∧
       exec t pre (mkSys w1 ss) = Some sa ∧
       step t (CStopMark tell) sa = Some sb ∧
       List.filter of_stop pre = [] ∧
       match tell with
       | Ok pos =>
         world sb = fst (markPosition t (Ok pos) (world sa)) ∧
         positions (world sb) = Put (positions (world sa)) (filename t) pos ∧
         Get (positions (world sb)) (filename t) = pos
       | Fail e =>
         positions (world sb) = positions (world sa) ∧
         logs (world sb)
         = logs (world sa)
           ++ [(Error, [VStr "msg"; VStr "error getting tail position";
                        VStr "path"; VStr (path t); VStr "error"; VErr e])]
       end) ∧
  (∃ pre post sa sb, cs = pre ++ CStopCloseQuit :: post ∧
     exec t pre (mkSys w1 ss) = Some sa ∧
     step t CStopCloseQuit sa = Some sb ∧
     quit (sess sa) = Open ∧ quit (sess sb) = Closed) ∧
  (∃ pre post s1, cs = pre ++ CStopAwaitDone :: post ∧
     exec t pre (mkSys w1 ss) = Some s1 ∧
     done (sess s1) = Closed ∧ loopPc (sess s1) = LExited ∧
     existsb is_exit pre = true) ∧
  (∃ pre post sa sb, cs = pre ++ CStopDecr :: post ∧
     exec t pre (mkSys w1 ss) = Some sa ∧
     step t CStopDecr sa = Some sb ∧
     filesActive (world sb) = filesActive (world sa) - 1) ∧
  filesActive (world s) = filesActive w0 ∧
  (∀ tell' err', ∃ s',
     exec t ([CRunStart; CStopMark tell'; CStopSource err'; CStopCloseQuit;
              CRun QuitRecv; CStopAwaitDone; CStopDecr; CStopReturn])
          (mkSys w1 ss) = Some s' ∧
     stopPc (sess s') = SReturned err').
Proof.
  intros Hn Hex Hret.
  destruct (newTailer_wired _ _ _ _ _ _ _ Hn) as [Hw _].
  destruct (newTailer_Ok_inv _ _ _ _ _ _ _ _ Hn) as (_ & _ & _ & _ & -> & ->).
  destruct (exec_reach_inv _ _ _ _ Hex) as [_ Hs]. rewrite Hret in Hs.
  destruct Hs as [tell Hf].
  assert (Hin : ∀ c, In c (stop_choices tell err) → In c cs).
  { intros c Hc. apply (proj1 (filter_In of_stop c cs)). by rewrite Hf. }
  split_and!.
  - exists tell. split; [exact Hf|].
    destruct (exec_at _ _ (CStopMark tell) _ _ Hex) as (pre & post & sa & sb & -> & H1 & H2);
      [apply Hin; simpl; tauto|].
    exists pre, post, sa, sb. split_and!; auto.
    + destruct (exec_reach_inv _ _ _ _ H1) as [_ Hp].
      unfold step in H2. destruct (stopPc (sess sa)); try discriminate. exact Hp.
    + unfold step in H2. destruct (stopPc (sess sa)); try discriminate.
      injection H2 as <-. destruct tell as [pos|e]; simpl.
      * split_and!; auto. unfold Get, Put. by rewrite lookup_insert_eq.
      * auto.
  - destruct (exec_at _ _ CStopCloseQuit _ _ Hex) as (pre & post & sa & sb & -> & H1 & H2);
      [apply Hin; simpl; tauto|].
    exists pre, post, sa, sb. split_and!; auto.
    + destruct (exec_channels _ _ _ _ H1) as (Hq & _).
      unfold step in H2. destruct (stopPc (sess sa)); try discriminate. exact Hq.
    + step_cases H2. by injection H2 as <-.
  - destruct (exec_at _ _ CStopAwaitDone _ _ Hex) as (pre & post & s1 & s2 & -> & H1 & H2);
      [apply Hin; simpl; tauto|].
    exists pre, post, s1. split_and!; auto.
    all: destruct (exec_reach_inv _ _ _ _ H1) as [Hl _]; unfold loop_inv in Hl;
      step_cases H2; destruct (loopPc (sess s1)); destruct Hl as (? & ? & ?);
      congruence.
  - destruct (exec_at _ _ CStopDecr _ _ Hex) as (pre & post & sa & sb & -> & H1 & H2);
      [apply Hin; simpl; tauto|].
    exists pre, post, sa, sb. split_and!; auto.
    step_cases H2. injection H2 as <-. simpl. lia.
  - rewrite (exec_filesActive _ _ _ _ _ Hw Hex).
    rewrite <- filter_decr_of_stop, Hf. simpl. lia.
  - intros tell' err'. destruct tell' as [pos|e]; eexists; split; reflexivity.
Qed.

Lemma stop_sequence_witness :
  ∃ tell, List.filter of_stop
            [CRunStart; CRun (LineRecv (mkLine "a" 1 None) None);
             CStopMark (Fail "file closed"); CStopSource (Some "already stopped");
             CSourceClose; CStopCloseQuit; CRun LinesClosed;
             CStopAwaitDone; CStopDecr; CStopReturn]
          = stop_choices tell (Some "already stopped").
Proof.
  assert (H : ∃ s, exec (ex_tailer ex_file 0 false)
               [CRunStart; CRun (LineRecv (mkLine "a" 1 None) None);
                CStopMark (Fail "file closed"); CStopSource (Some "already stopped");
                CSourceClose; CStopCloseQuit; CRun LinesClosed;
                CStopAwaitDone; CStopDecr; CStopReturn]
               (mkSys (mkWorld ∅ ∅ ∅ ∅ 1 [] [] [ex_file]) fresh) = Some s ∧
               stopPc (sess s) = SReturned (Some "already stopped")).
  { eexists. split; [vm_compute; reflexivity | reflexivity]. }
  destruct H as (s & Hex & Hret).
  destruct (stop_sequence ex_label ex_os (ex_world ∅) ex_file _ _ _ _ s _
              newTailer_on_file_cold Hex Hret) as ((tell & Hf & _) & _).
  exists tell. exact Hf.
Defined.

(** ** The checkpoint against what was delivered *)

Lemma exec_checkpoint_within ls w0 t cs s s' :
  wired ls t →
  checkpoint_within w0 t (world s) →
  tells_within w0 t cs s = true →
  exec t cs s = Some s' →
  checkpoint_within w0 t (world s').
Proof.
  intros Hw. revert s. induction cs as [|c cs IH]; intros s Hin Ht H; simpl in *.
  - by injection H as <-.
  - destruct (step t c s) as [s1|] eqn:Hs; [|discriminate].
    apply andb_true_iff in Ht as [Hc Ht].
    apply (IH s1); auto.
    destruct (step_frame _ _ _ _ _ Hw Hs) as (Hh & Hp & _).
    unfold checkpoint_within in *. rewrite Hh, Hp, delivered_app.
    pose proof (delivered_nonneg (call_of ls c)).
    destruct (tell_of c) as [pos|].
    + apply Z.leb_le in Hc.
      replace (Get (Put (positions (world s)) (filename t) pos) (filename t))
        with pos by (unfold Get, Put; by rewrite lookup_insert_eq).
      lia.
    + lia.
Qed.

(** C4 as stated does not hold: a tick can fire before the loop has
    received the first line, at a time when [Tell] already reports the
    offset behind that line; the store then holds 2 while nothing has
    reached the handler. *)
Lemma checkpoint_ahead_of_delivery :
  newTailer ex_label ex_os downstream (ex_world ∅) ex_file
  = (Ok (ex_tailer ex_file 0 false, fresh), mkWorld ∅ ∅ ∅ ∅ 1 [] [] [ex_file]) ∧
  ∃ s, exec (ex_tailer ex_file 0 false)
            [CRunStart; CRun (Tick (Ok (mkFileInfo 420 2)) (Ok 2))]
            (mkSys (mkWorld ∅ ∅ ∅ ∅ 1 [] [] [ex_file]) fresh) = Some s ∧
       handled (world s) = [] ∧
       Get (positions (world s)) ex_file = 2 ∧
       ¬ checkpoint_within (ex_world ∅) (ex_tailer ex_file 0 false) (world s).
Proof.
  split; [reflexivity|]. eexists. split; [reflexivity|].
  split; [reflexivity|]. split; [reflexivity|].
  unfold checkpoint_within. vm_compute. intros H. apply H. reflexivity.
Qed.

(** C4, amended.  The session stores what the line source reports: along
    every schedule of a constructed session in which each offset [Tell]
    reports is not ahead of the content delivered when it is reported,
    the store entry of the resolved path is never ahead of it either. *)
Theorem checkpoint_within_delivery lbl os w0 p t ss w1 cs s :
  newTailer lbl os downstream w0 p = (Ok (t, ss), w1) →
  tells_within w0 t cs (mkSys w1 ss) = true →
  exec t cs (mkSys w1 ss) = Some s →
  checkpoint_within w0 t (world s).
Proof.
  intros Hn Ht Hex.
  destruct (newTailer_wired _ _ _ _ _ _ _ Hn) as [Hw _].
  destruct (newTailer_Ok_inv _ _ _ _ _ _ _ _ Hn) as (_ & _ & _ & _ & -> & ->).
  eapply exec_checkpoint_within; eauto.
  unfold checkpoint_within. simpl. lia.
Qed.

Lemma checkpoint_within_delivery_witness :
  ∃ s, exec (ex_tailer ex_file 0 false) ex_schedule
            (mkSys (mkWorld ∅ ∅ ∅ ∅ 1 [] [] [ex_file]) fresh) = Some s ∧
       checkpoint_within (ex_world ∅) (ex_tailer ex_file 0 false) (world s).
Proof.
  eexists. split; [vm_compute; reflexivity|].
  apply (checkpoint_within_delivery ex_label ex_os (ex_world ∅) ex_file
           _ _ _ ex_schedule _ newTailer_on_file_cold).
  - vm_compute. reflexivity.
  - vm_compute. reflexivity.
Defined.

(** ** Symbolic links *)

(** C5.  When the requested path is a symbolic link and construction
    succeeds, the session reads the link's target, the source is opened
    with [ReOpen] set, the session keeps the requested path, and along
    every schedule each line received reaches the downstream handler
    with exactly one label, [filenameLabel], whose value is the requested
    path. *)
Theorem newTailer_symlink lbl os w p fi t ss w' cs s :
  Lstat os p = Ok fi →
  isSymlink fi = true →
  newTailer lbl os downstream w p = (Ok (t, ss), w') →
  exec t cs (mkSys w' ss) = Some s →
  Readlink os p = Ok (filename t) ∧
  ReOpen (Config (tail t)) = true ∧
  path t = p ∧
  handled (world s) = handled w ++ flat_map (call_of {[lbl := p]}) cs ∧
  ({[lbl := p]} : LabelSet) !! lbl = Some p.
Proof.
  intros Hl Hs H Hex.
  destruct (newTailer_wired _ _ _ _ _ _ _ H) as [Hw Hp].
  rewrite (exec_handled _ _ _ _ _ Hw Hex).
  destruct (newTailer_Ok_inv _ _ _ _ _ _ _ _ H)
    as (reOpen & (fi' & Hl' & Hres) & _ & Ht & _ & ->).
  rewrite Hl in Hl'. injection Hl' as <-. rewrite Hs in Hres.
  destruct Hres as [Hr ->]. rewrite Ht; simpl.
  repeat split; auto. apply lookup_singleton_eq.
Qed.

Lemma newTailer_symlink_witness :
  Readlink ex_os ex_link = Ok (filename (ex_tailer ex_link 0 true)) ∧
  ReOpen (Config (tail (ex_tailer ex_link 0 true))) = true.
Proof.
  pose proof (newTailer_symlink ex_label ex_os (ex_world ∅) ex_link
                (mkFileInfo ModeSymlink 0) _ _ _
                [CRunStart; CRun (LineRecv (mkLine "a" 1 None) None)] _
                eq_refl eq_refl newTailer_on_link eq_refl)
    as (Hr & Ho & _).
  split; [exact Hr | exact Ho].
Defined.

(** * Further properties of the session *)

(** ** Construction, continued *)

(** A path that resolves and opens yields a session. *)
Lemma newTailer_Ok_intro lbl os h w p resolved reOpen :
  resolves os p resolved reOpen →
  TailFile_error os resolved (opening w resolved reOpen) = None →
  newTailer lbl os h w p
  = (Ok (mkTailer (AddLabelsMiddleware {[lbl := p]} h) p resolved
                  (mkTail resolved (opening w resolved reOpen)), fresh),
     set_filesActive (fun a => a + 1) (spawn p w)).
Proof.
  intros (fi & Hl & Hres) Hopen.
  unfold newTailer, TailFile. rewrite Hl. unfold opening in Hopen.
  destruct (isSymlink fi); destruct Hres as [-> ->]; by rewrite Hopen.
Qed.

(** X1.  A successful construction registers exactly one session: it
    starts one event loop for the requested path, adds one to
    [filesActive], hands out a session whose channels are open and whose
    loop has not run yet, and neither writes to the checkpoint store or
    to the per-path metrics nor logs or forwards anything. *)
Theorem newTailer_success_frame lbl os h w p t ss w' :
  newTailer lbl os h w p = (Ok (t, ss), w') →
  ss = fresh ∧
  goroutines w' = goroutines w ++ [p] ∧
  filesActive w' = filesActive w + 1 ∧
  positions w' = positions w ∧
  readLines w' = readLines w ∧ readBytes w' = readBytes w ∧
  totalBytes w' = totalBytes w ∧
  logs w' = logs w ∧ handled w' = handled w.
Proof.
  intros H.
  destruct (newTailer_Ok_inv _ _ _ _ _ _ _ _ H) as (_ & _ & _ & _ & -> & ->).
  simpl. auto 10.
Qed.

Lemma newTailer_success_frame_witness :
  filesActive (mkWorld {[ex_file := 9]} ∅ ∅ ∅ 1 [] [] [ex_file])
  = filesActive (ex_world {[ex_file := 9]}) + 1.
Proof.
  pose proof (newTailer_success_frame ex_label ex_os downstream
                (ex_world {[ex_file := 9]}) ex_file _ _ _ newTailer_on_file)
    as (_ & _ & Hf & _).
  exact Hf.
Defined.

(** X2.  The symbolic-link test looks at bit 27 of the mode and at no
    other bit: permission bits and the other type bits do not matter. *)
Theorem isSymlink_bit (fi : FileInfo) :
  isSymlink fi = Z.testbit (Mode fi) 27.
Proof.
  unfold isSymlink, ModeSymlink. rewrite Z.shiftl_1_l.
  destruct (Z.testbit (Mode fi) 27) eqn:Hb.
  - apply Z.eqb_eq. apply Z.bits_inj'. intros i Hi.
    rewrite Z.land_spec, Z.pow2_bits_eqb by lia.
    destruct (Z.eqb_spec 27 i) as [<-|Hne]; [by rewrite Hb|].
    by rewrite andb_false_r.
  - apply Z.eqb_neq. intros Heq.
    assert (Ht : Z.testbit (Z.land (Mode fi) (2 ^ 27)) 27 = true)
      by (rewrite Heq; apply Z.pow2_bits_true; lia).
    rewrite Z.land_spec, Hb in Ht. discriminate.
Qed.

(** X3.  On a path that is not a symbolic link, the session reads the
    requested path itself, opens the source without [ReOpen], and the
    outcome does not depend on what [Readlink] would answer. *)
Theorem newTailer_regular_file lbl os h w p fi :
  Lstat os p = Ok fi →
  isSymlink fi = false →
  (∀ t ss w', newTailer lbl os h w p = (Ok (t, ss), w') →
     filename t = p ∧ Filename (tail t) = p ∧
     ReOpen (Config (tail t)) = false) ∧
  (∀ readlink',
     newTailer lbl (mkOS (Lstat os) readlink' (TailFile_error os)) h w p
     = newTailer lbl os h w p).
Proof.
  intros Hl Hs. split.
  - intros t ss w' H.
    destruct (newTailer_Ok_inv _ _ _ _ _ _ _ _ H)
      as (reOpen & (fi' & Hl' & Hres) & _ & Ht & _).
    rewrite Hl in Hl'. injection Hl' as <-. rewrite Hs in Hres.
    destruct Hres as [Hf ->]. rewrite Ht. simpl. rewrite Ht in Hf. auto.
  - intros readlink'. unfold newTailer, TailFile. simpl. by rewrite Hl, Hs.
Qed.

Lemma newTailer_regular_file_witness :
  newTailer ex_label
            (mkOS (Lstat ex_os) (fun _ => Fail "permission denied")
                  (TailFile_error ex_os))
            downstream (ex_world ∅) ex_file
  = newTailer ex_label ex_os downstream (ex_world ∅) ex_file.
Proof.
  exact (proj2 (newTailer_regular_file ex_label ex_os downstream (ex_world ∅)
                  ex_file (mkFileInfo 420 9) eq_refl eq_refl)
           (fun _ => Fail "permission denied")).
Defined.

(** ** Checkpointing, continued *)

(** X4.  Checkpoints compose by "last one wins" on the store: repeating
    a checkpoint with the same offset changes nothing more, a later
    offset replaces an earlier one, and a failed offset read after a
    successful checkpoint keeps the entry of the successful one. *)
Theorem markPosition_compose (t : tailer) (w : World) (a b : Z) (e : error) :
  positions (fst (markPosition t (Ok a) (fst (markPosition t (Ok a) w))))
  = positions (fst (markPosition t (Ok a) w)) ∧
  positions (fst (markPosition t (Ok b) (fst (markPosition t (Ok a) w))))
  = positions (fst (markPosition t (Ok b) w)) ∧
  Get (positions (fst (markPosition t (Fail e) (fst (markPosition t (Ok a) w)))))
      (filename t) = a.
Proof.
  simpl. unfold Put, Get. rewrite !insert_insert_eq, lookup_insert_eq. auto.
Qed.

(** X5.  [cleanup] and checkpoints: [cleanup] after a checkpoint removes
    the entry; a checkpoint after [cleanup] creates it again ([cleanup]
    does not stop the session); [cleanup] twice is [cleanup] once, and
    [cleanup] of a path without entry changes nothing; [cleanup] never
    touches the entry of another path, the metrics or the log. *)
Theorem cleanup_compose (t : tailer) (w : World) (pos : Z) :
  positions (cleanup t (fst (markPosition t (Ok pos) w))) !! filename t = None ∧
  Get (positions (fst (markPosition t (Ok pos) (cleanup t w)))) (filename t) = pos ∧
  cleanup t (cleanup t w) = cleanup t w ∧
  (positions w !! filename t = None → cleanup t w = w) ∧
  (∀ k, k ≠ filename t → positions (cleanup t w) !! k = positions w !! k) ∧
  readLines (cleanup t w) = readLines w ∧ readBytes (cleanup t w) = readBytes w ∧
  totalBytes (cleanup t w) = totalBytes w ∧
  filesActive (cleanup t w) = filesActive w ∧ logs (cleanup t w) = logs w.
Proof.
  unfold cleanup, set_positions. simpl. unfold Remove, Get, Put.
  split_and!; try reflexivity.
  - apply lookup_delete_eq.
  - by rewrite lookup_insert_eq.
  - by rewrite delete_delete_eq.
  - intros Hn. rewrite (delete_id _ _ Hn). by destruct w.
  - intros k Hk. by apply lookup_delete_ne.
Qed.

(** ** Effects of one step, continued *)

Lemma step_metrics ls t c s s' :
  wired ls t →
  step t c s = Some s' →
  readLines (world s')
  = match c with
    | CRun (LineRecv _ _) => Inc (path t) (readLines (world s))
    | _ => readLines (world s)
    end ∧
  readBytes (world s')
  = match c with
    | CRun (LineRecv l _) =>
      Add (path t) (Z.of_nat (String.length (Text l)) + 1) (readBytes (world s))
    | _ => readBytes (world s)
    end ∧
  totalBytes (world s')
  = match size_of c with
    | Some z => Set_ (path t) z (totalBytes (world s))
    | None => totalBytes (world s)
    end.
Proof.
  intros Hw H. destruct c as [|ev| |tell|err| | | |].
  2: { destruct ev as [st tell|l outcome| |].
       - destruct (run_body_tick t st tell (world s))
           as (w' & Hb & _ & _ & Hrl & Hrb & _ & Htb).
         unfold step in H. rewrite Hb in H.
         destruct (loopPc (sess s)); try discriminate.
         destruct (ready _ _); try discriminate. injection H as <-. simpl.
         rewrite Hrl, Hrb, Htb. by destruct st.
       - destruct (run_body_line ls t l outcome (world s) Hw)
           as (w' & Hb & _ & Htb & _ & _ & Hrl & Hrb & _).
         unfold step in H. rewrite Hb in H.
         destruct (loopPc (sess s)); try discriminate.
         destruct (ready _ _); try discriminate. injection H as <-. simpl.
         by rewrite Hrl, Hrb, Htb.
       - unfold step in H. cbn [run_body] in H. step_cases H.
         by injection H as <-.
       - unfold step in H. cbn [run_body] in H. step_cases H.
         by injection H as <-. }
  3: { unfold step in H. destruct (stopPc (sess s)); try discriminate.
       injection H as <-. by destruct tell. }
  all: step_cases H; by injection H as <-.
Qed.

(** ** What a schedule does to the store and to the metrics *)

Lemma last_omap_cons {A B} (f : A → option B) (x : A) (l : list A) :
  last (omap f (x :: l))
  = match last (omap f l) with Some y => Some y | None => f x end.
Proof.
  cbn. destruct (f x) as [y|]; [|by destruct (last (omap f l))].
  rewrite last_cons. by destruct (last (omap f l)).
Qed.

Lemma exec_store ls t cs s s' :
  wired ls t →
  exec t cs s = Some s' →
  positions (world s')
  = match last_tell cs with
    | Some pos => Put (positions (world s)) (filename t) pos
    | None => positions (world s)
    end.
Proof.
  intros Hw. revert s. induction cs as [|c cs IH]; intros s H.
  - by injection H as <-.
  - simpl in H. destruct (step t c s) as [s1|] eqn:Hs; [|discriminate].
    destruct (step_frame _ _ _ _ _ Hw Hs) as (_ & Hp & _).
    rewrite (IH _ H), Hp. unfold last_tell. rewrite last_omap_cons.
    destruct (last (omap tell_of cs)), (tell_of c); auto.
    unfold Put. by rewrite insert_insert_eq.
Qed.

Lemma exec_gauge ls t cs s s' :
  wired ls t →
  exec t cs s = Some s' →
  totalBytes (world s')
  = match last (omap size_of cs) with
    | Some z => Set_ (path t) z (totalBytes (world s))
    | None => totalBytes (world s)
    end.
Proof.
  intros Hw. revert s. induction cs as [|c cs IH]; intros s H.
  - by injection H as <-.
  - simpl in H. destruct (step t c s) as [s1|] eqn:Hs; [|discriminate].
    destruct (step_metrics _ _ _ _ _ Hw Hs) as (_ & _ & Htb).
    rewrite (IH _ H), Htb, last_omap_cons.
    destruct (last (omap size_of cs)), (size_of c); auto.
    unfold Set_. by rewrite insert_insert_eq.
Qed.

Lemma exec_counters ls t cs s s' :
  wired ls t →
  exec t cs s = Some s' →
  value (readLines (world s')) (path t)
  = value (readLines (world s)) (path t) + Z.of_nat (length (lines_of cs)) ∧
  value (readBytes (world s')) (path t)
  = value (readBytes (world s)) (path t) + delivered (flat_map (call_of ls) cs) ∧
  (∀ k, k ≠ path t →
        readLines (world s') !! k = readLines (world s) !! k ∧
        readBytes (world s') !! k = readBytes (world s) !! k).
Proof.
  intros Hw. revert s. induction cs as [|c cs IH]; intros s H.
  - injection H as <-. simpl. split_and!; auto; lia.
  - simpl in H. destruct (step t c s) as [s1|] eqn:Hs; [|discriminate].
    destruct (step_metrics _ _ _ _ _ Hw Hs) as (Hrl & Hrb & _).
    destruct (IH _ H) as (IH1 & IH2 & IH3).
    rewrite IH1, IH2, Hrl, Hrb.
    change (lines_of (c :: cs))
      with (match c with CRun (LineRecv l _) => [l] | _ => [] end ++ lines_of cs).
    change (flat_map (call_of ls) (c :: cs))
      with (call_of ls c ++ flat_map (call_of ls) cs).
    rewrite length_app, delivered_app. split_and!.
    + destruct c as [|[st tell|l outcome| |]| | | | | | |]; simpl; try lia.
      unfold Inc. rewrite value_Add. lia.
    + destruct c as [|[st tell|l outcome| |]| | | | | | |]; simpl; try lia.
      rewrite value_Add. lia.
    + intros k Hk. destruct (IH3 k Hk) as [-> ->]. rewrite Hrl, Hrb.
      destruct c as [|[st tell|l outcome| |]| | | | | | |]; auto.
      unfold Inc, Add. by rewrite !lookup_insert_ne.
Qed.

(** X6.  After any schedule of a constructed session the checkpoint
    store is the store found at construction with, at most, the entry of
    the resolved path set to the offset of the last checkpoint whose
    offset read succeeded (a tick with a successful stat, or [stop]); it
    is the store found at construction if there was none.  Entries of
    other paths are never touched. *)
Theorem session_store lbl os w0 p t ss w1 cs s :
  newTailer lbl os downstream w0 p = (Ok (t, ss), w1) →
  exec t cs (mkSys w1 ss) = Some s →
  positions (world s)
  = match last_tell cs with
    | Some pos => Put (positions w0) (filename t) pos
    | None => positions w0
    end ∧
  (∀ k, k ≠ filename t → positions (world s) !! k = positions w0 !! k).
Proof.
  intros Hn Hex. destruct (newTailer_wired _ _ _ _ _ _ _ Hn) as [Hw _].
  pose proof (exec_store _ _ _ _ _ Hw Hex) as Hp.
  destruct (newTailer_Ok_inv _ _ _ _ _ _ _ _ Hn) as (_ & _ & _ & _ & _ & ->).
  simpl in Hp. split; [exact Hp|].
  intros k Hk. rewrite Hp. destruct (last_tell cs); auto.
  unfold Put. by rewrite lookup_insert_ne.
Qed.

Lemma session_store_witness :
  ∃ s, exec (ex_tailer ex_file 0 false) ex_schedule
            (mkSys (mkWorld ∅ ∅ ∅ ∅ 1 [] [] [ex_file]) fresh) = Some s ∧
       positions (world s) = Put ∅ ex_file 5.
Proof.
  eexists. split; [vm_compute; reflexivity|].
  refine (proj1 (session_store ex_label ex_os (ex_world ∅) ex_file _ _ _
                   ex_schedule _ newTailer_on_file_cold _)).
  vm_compute. reflexivity.
Defined.

(** X7.  After any schedule of a constructed session, [readLines] of
    the requested path has grown by the number of lines received, which
    is the number of calls that reached the handler, and [readBytes] has
    grown by the bytes of those calls (each text and its newline): the
    two counters account for exactly what was handed to the handler. *)
Theorem session_counters lbl os w0 p t ss w1 cs s :
  newTailer lbl os downstream w0 p = (Ok (t, ss), w1) →
  exec t cs (mkSys w1 ss) = Some s →
  value (readLines (world s)) p
  = value (readLines w0) p + Z.of_nat (length (lines_of cs)) ∧
  length (handled (world s)) = (length (handled w0) + length (lines_of cs))%nat ∧
  value (readBytes (world s)) p - value (readBytes w0) p
  = delivered (handled (world s)) - delivered (handled w0).
Proof.
  intros Hn Hex. destruct (newTailer_wired _ _ _ _ _ _ _ Hn) as [Hw Hp].
  destruct (exec_counters _ _ _ _ _ Hw Hex) as (Hrl & Hrb & _).
  pose proof (exec_handled _ _ _ _ _ Hw Hex) as Hh.
  destruct (newTailer_Ok_inv _ _ _ _ _ _ _ _ Hn) as (_ & _ & _ & _ & _ & ->).
  simpl in *. rewrite Hp in *. rewrite Hrl, Hrb, Hh, delivered_app, length_app.
  split_and!; [reflexivity| |lia].
  f_equal. clear. induction cs as [|c cs IH]; [reflexivity|].
  destruct c as [|[]| | | | | | |]; simpl; auto.
Qed.

Lemma session_counters_witness :
  ∃ s, exec (ex_tailer ex_file 0 false) ex_schedule
            (mkSys (mkWorld ∅ ∅ ∅ ∅ 1 [] [] [ex_file]) fresh) = Some s ∧
       value (readLines (world s)) ex_file = 0 + 2.
Proof.
  eexists. split; [vm_compute; reflexivity|].
  refine (proj1 (session_counters ex_label ex_os (ex_world ∅) ex_file _ _ _
                   ex_schedule _ newTailer_on_file_cold _)).
  vm_compute. reflexivity.
Defined.

(** X8.  Whatever the requested path, the calls that reach the handler
    are exactly the lines received, each once and in the order received,
    with the line's timestamp and text and the single label
    [filenameLabel] valued with the requested path; a line is neither
    retried nor dropped when the handler fails or the line carries a
    read error. *)
Theorem session_forwards_in_order lbl os w0 p t ss w1 cs s :
  newTailer lbl os downstream w0 p = (Ok (t, ss), w1) →
  exec t cs (mkSys w1 ss) = Some s →
  handled (world s)
  = handled w0
    ++ map (fun l => ({[lbl := p]}, Time l, Text l)) (lines_of cs).
Proof.
  intros Hn Hex. destruct (newTailer_wired _ _ _ _ _ _ _ Hn) as [Hw _].
  rewrite (exec_handled _ _ _ _ _ Hw Hex).
  destruct (newTailer_Ok_inv _ _ _ _ _ _ _ _ Hn) as (_ & _ & _ & _ & _ & ->).
  simpl. f_equal. clear. induction cs as [|c cs IH]; [reflexivity|].
  destruct c as [|[]| | | | | | |]; simpl; rewrite ?IH; auto.
Qed.

Lemma session_forwards_in_order_witness :
  ∃ s, exec (ex_tailer ex_file 0 false) ex_schedule
            (mkSys (mkWorld ∅ ∅ ∅ ∅ 1 [] [] [ex_file]) fresh) = Some s ∧
       handled (world s)
       = [({[ex_label := ex_file]}, 1, "a"); ({[ex_label := ex_file]}, 2, "bb")].
Proof.
  eexists. split; [vm_compute; reflexivity|].
  refine (session_forwards_in_order ex_label ex_os (ex_world ∅) ex_file _ _ _
            ex_schedule _ newTailer_on_file_cold _).
  vm_compute. reflexivity.
Defined.

(** X9.  After any schedule of a constructed session, [totalBytes] is
    the gauge found at construction with, at most, the value of the
    requested path set to the size of the last successful stat of a tick
    (whether or not the offset read of that tick succeeded); the values
    of [readLines], [readBytes] and [totalBytes] under other paths are
    never touched. *)
Theorem session_metrics_isolated lbl os w0 p t ss w1 cs s :
  newTailer lbl os downstream w0 p = (Ok (t, ss), w1) →
  exec t cs (mkSys w1 ss) = Some s →
  totalBytes (world s)
  = match last (omap size_of cs) with
    | Some z => Set_ p z (totalBytes w0)
    | None => totalBytes w0
    end ∧
  (∀ k, k ≠ p →
        readLines (world s) !! k = readLines w0 !! k ∧
        readBytes (world s) !! k = readBytes w0 !! k ∧
        totalBytes (world s) !! k = totalBytes w0 !! k).
Proof.
  intros Hn Hex. destruct (newTailer_wired _ _ _ _ _ _ _ Hn) as [Hw Hp].
  pose proof (exec_gauge _ _ _ _ _ Hw Hex) as Hg.
  destruct (exec_counters _ _ _ _ _ Hw Hex) as (_ & _ & Hother).
  destruct (newTailer_Ok_inv _ _ _ _ _ _ _ _ Hn) as (_ & _ & _ & _ & _ & ->).
  simpl in *. rewrite Hp in *. split; [exact Hg|].
  intros k Hk. destruct (Hother k Hk) as [-> ->]. split_and!; auto.
  rewrite Hg. destruct (last (omap size_of cs)); auto.
  unfold Set_. by rewrite lookup_insert_ne.
Qed.

Lemma session_metrics_isolated_witness :
  ∃ s, exec (ex_tailer ex_file 0 false) ex_schedule
            (mkSys (mkWorld ∅ ∅ ∅ ∅ 1 [] [] [ex_file]) fresh) = Some s ∧
       totalBytes (world s) = Set_ ex_file 2 ∅.
Proof.
  eexists. split; [vm_compute; reflexivity|].
  refine (proj1 (session_metrics_isolated ex_label ex_os (ex_world ∅) ex_file
                   _ _ _ ex_schedule _ newTailer_on_file_cold _)).
  vm_compute. reflexivity.
Defined.

(** Steps of the owner and of the line source leave what the loop owns. *)
Lemma step_not_run t c s s' :
  of_run c = false →
  step t c s = Some s' →
  loopPc (sess s') = loopPc (sess s) ∧ done (sess s') = done (sess s) ∧
  ticker (sess s') = ticker (sess s) ∧
  handled (world s') = handled (world s) ∧
  readLines (world s') = readLines (world s) ∧
  readBytes (world s') = readBytes (world s) ∧
  totalBytes (world s') = totalBytes (world s).
Proof.
  intros Hc H. destruct c as [|ev| |tell|err| | | |]; try discriminate.
  2: { unfold step in H. destruct (stopPc (sess s)); try discriminate.
       injection H as <-. destruct tell; simpl; auto 10. }
  all: step_cases H; injection H as <-; simpl; auto 10.
Qed.

Lemma exec_after_exit t cs s s' :
  loopPc (sess s) = LExited →
  exec t cs s = Some s' →
  forallb (fun c => negb (of_run c)) cs = true ∧
  loopPc (sess s') = LExited ∧ done (sess s') = done (sess s) ∧
  ticker (sess s') = ticker (sess s) ∧
  handled (world s') = handled (world s) ∧
  readLines (world s') = readLines (world s) ∧
  readBytes (world s') = readBytes (world s) ∧
  totalBytes (world s') = totalBytes (world s).
Proof.
  revert s. induction cs as [|c cs IH]; intros s Hx H.
  - injection H as <-. auto 10.
  - simpl in H. destruct (step t c s) as [s1|] eqn:Hs; [|discriminate].
    assert (Hc : of_run c = false).
    { destruct c as [|ev| | | | | | |]; auto; unfold step in Hs;
        rewrite Hx in Hs; discriminate. }
    destruct (step_not_run _ _ _ _ Hc Hs) as (Hl & Hd & Ht & Hh & Hrl & Hrb & Htb).
    destruct (IH s1) as (Hf & ? & ? & ? & ? & ? & ? & ?); [congruence|auto|].
    simpl. rewrite Hc, Hf. split_and!; auto; congruence.
Qed.

(** ** The loop, continued *)

(** X10.  Once the loop has returned it does nothing more: no case of
    the [select] and no start is taken again, and whatever the owner and
    the line source do afterwards, [done] stays closed, the ticker stays
    stopped, and nothing more is forwarded to the handler or added to
    [readLines], [readBytes] and [totalBytes]. *)
Theorem nothing_after_exit (t : tailer) w cs s :
  exec t cs (mkSys w fresh) = Some s →
  loopPc (sess s) = LExited →
  (∀ ev, step t (CRun ev) s = None) ∧
  step t CRunStart s = None ∧
  (∀ cs' s', exec t cs' s = Some s' →
     loopPc (sess s') = LExited ∧ done (sess s') = Closed ∧
     ticker (sess s') = TickerStopped ∧
     handled (world s') = handled (world s) ∧
     readLines (world s') = readLines (world s) ∧
     readBytes (world s') = readBytes (world s) ∧
     totalBytes (world s') = totalBytes (world s)).
Proof.
  intros Hex Hx. destruct (exec_reach_inv _ _ _ _ Hex) as [Hl _].
  unfold loop_inv in Hl. rewrite Hx in Hl. destruct Hl as (Htk & Hdn & _).
  split_and!.
  - intros ev. unfold step. by rewrite Hx.
  - unfold step. by rewrite Hx.
  - intros cs' s' H'.
    destruct (exec_after_exit _ _ _ _ Hx H') as (_ & ? & Hd & Ht & ? & ? & ? & ?).
    rewrite Hd, Ht. auto 10.
Qed.

Lemma nothing_after_exit_witness :
  step (ex_tailer ex_file 0 false)
       (CRun (LineRecv (mkLine "late" 9 None) None))
       (mkSys (Log Info [VStr "msg"; VStr "start tailing file";
                         VStr "path"; VStr ex_file] (ex_world ∅))
              (mkSession Open Closed Closed TickerStopped LExited SIdle))
  = None.
Proof.
  refine (proj1 (nothing_after_exit (ex_tailer ex_file 0 false) (ex_world ∅)
                   [CRunStart; CSourceClose; CRun LinesClosed] _ eq_refl eq_refl)
            _).
Defined.

(** X11.  The loop returns only for a cause: it takes the [quit] case
    only after [stop] has closed [quit], and the closed-[Lines] case only
    after the line source has closed [Lines]; so a loop that has returned
    was either stopped by its owner or abandoned by its source. *)
Theorem loop_exit_causes (t : tailer) w cs s :
  exec t cs (mkSys w fresh) = Some s →
  (∀ pre post, cs = pre ++ CRun QuitRecv :: post → In CStopCloseQuit pre) ∧
  (∀ pre post, cs = pre ++ CRun LinesClosed :: post → In CSourceClose pre) ∧
  (loopPc (sess s) = LExited → In CStopCloseQuit cs ∨ In CSourceClose cs).
Proof.
  intros Hex.
  assert (Hq : ∀ pre post, cs = pre ++ CRun QuitRecv :: post →
                           In CStopCloseQuit pre).
  { intros pre post ->.
    destruct (exec_split _ _ _ _ _ _ Hex) as (s1 & s2 & H1 & H2 & _).
    destruct (exec_channels _ _ _ _ H1) as (_ & Hc & _). apply Hc.
    unfold step in H2. destruct (loopPc (sess s1)); try discriminate.
    simpl in H2. by destruct (quit (sess s1)). }
  assert (Hl : ∀ pre post, cs = pre ++ CRun LinesClosed :: post →
                           In CSourceClose pre).
  { intros pre post ->.
    destruct (exec_split _ _ _ _ _ _ Hex) as (s1 & s2 & H1 & H2 & _).
    destruct (exec_channels _ _ _ _ H1) as (_ & _ & Hc). apply Hc.
    unfold step in H2. destruct (loopPc (sess s1)); try discriminate.
    simpl in H2. by destruct (linesCh (sess s1)). }
  split_and!; auto.
  intros Hx. destruct (exec_reach_inv _ _ _ _ Hex) as [Hi _].
  unfold loop_inv in Hi. rewrite Hx in Hi. destruct Hi as (_ & _ & He).
  apply existsb_exists in He as (c & Hin & Hc).
  destruct (in_split _ _ Hin) as (pre & post & Hcs).
  destruct c as [|[| | |]| | | | | | |]; try discriminate.
  - right. rewrite Hcs at 1. apply in_app_iff. left. eapply Hl; eauto.
  - left. rewrite Hcs at 1. apply in_app_iff. left. eapply Hq; eauto.
Qed.

Lemma loop_exit_causes_witness :
  In CSourceClose [CRunStart; CSourceClose].
Proof.
  refine (proj1 (proj2 (loop_exit_causes (ex_tailer ex_file 0 false) (ex_world ∅)
                          [CRunStart; CSourceClose; CRun LinesClosed] _ eq_refl))
            [CRunStart; CSourceClose] [] eq_refl).
Defined.

(** ** stop, continued *)

(** X12.  [stop] cannot hang by the fault of the session: from every
    point a session reaches, whatever the line source answers to the
    checkpoint and to its own stop, letting [stop] go on up to
    [close(t.quit)], the loop take the [quit] case and [stop] finish is
    a schedule that runs, and at its end [stop] has returned and the loop
    has returned. *)
Theorem stop_can_return (t : tailer) w cs s tell err :
  exec t cs (mkSys w fresh) = Some s →
  ∃ s' e, exec t (completion tell err (sess s)) s = Some s' ∧
          stopPc (sess s') = SReturned e ∧
          loopPc (sess s') = LExited ∧
          (stopPc (sess s) = SIdle ∨ stopPc (sess s) = SMarked → e = err).
Proof.
  intros Hex.
  destruct (exec_reach_inv _ _ _ _ Hex) as [Hl _].
  destruct (exec_channels _ _ _ _ Hex) as (Hq & _).
  unfold loop_inv in Hl.
  destruct s as [w' [q d l tk lp sp]]. simpl in *.
  destruct sp, lp; destruct Hl as (-> & -> & _); simpl in Hq; subst q;
    destruct tell; (do 2 eexists); (split; [reflexivity|]); simpl;
    (split_and!; auto); intros [?|?]; congruence.
Qed.

Lemma stop_can_return_witness :
  ∃ s' e, exec (ex_tailer ex_file 0 false)
               [CStopMark (Fail "file closed"); CStopSource None; CStopCloseQuit;
                CRun QuitRecv; CStopAwaitDone; CStopDecr; CStopReturn]
               (mkSys (Log Info [VStr "msg"; VStr "start tailing file";
                                 VStr "path"; VStr ex_file] (ex_world ∅))
                      (mkSession Open Open Open Ticking LSelect SIdle)) = Some s' ∧
          stopPc (sess s') = SReturned e ∧ loopPc (sess s') = LExited.
Proof.
  destruct (stop_can_return (ex_tailer ex_file 0 false) (ex_world ∅) [CRunStart]
              _ (Fail "file closed") None eq_refl) as (s' & e & H1 & H2 & H3 & _).
  exists s', e. split_and!; [exact H1 | exact H2 | exact H3].
Defined.

(** X13.  [filesActive] counts the session from its construction until
    [stop] has decremented it: at every point it is the value before
    construction plus one until [stop] reaches its decrement, and the
    value before construction from then on; the loop returning by itself
    (the source closing [Lines]) does not change it. *)
Theorem session_gauge lbl os w0 p t ss w1 cs s :
  newTailer lbl os downstream w0 p = (Ok (t, ss), w1) →
  exec t cs (mkSys w1 ss) = Some s →
  filesActive (world s)
  = filesActive w0 + (if decremented (stopPc (sess s)) then 0 else 1).
Proof.
  intros Hn Hex. destruct (newTailer_wired _ _ _ _ _ _ _ Hn) as [Hw _].
  destruct (newTailer_Ok_inv _ _ _ _ _ _ _ _ Hn) as (_ & _ & _ & _ & -> & ->).
  rewrite (exec_filesActive _ _ _ _ _ Hw Hex).
  destruct (exec_reach_inv _ _ _ _ Hex) as [_ Hs].
  rewrite <- filter_decr_of_stop.
  destruct (stopPc (sess s)); simpl in Hs;
    [|destruct Hs as [tell Hs]..]; rewrite Hs; simpl; lia.
Qed.

Lemma session_gauge_witness :
  ∃ s, exec (ex_tailer ex_file 0 false)
            [CRunStart; CSourceClose; CRun LinesClosed]
            (mkSys (mkWorld ∅ ∅ ∅ ∅ 1 [] [] [ex_file]) fresh) = Some s ∧
       filesActive (world s) = 0 + 1.
Proof.
  eexists. split; [vm_compute; reflexivity|].
  refine (session_gauge ex_label ex_os (ex_world ∅) ex_file _ _ _
            [CRunStart; CSourceClose; CRun LinesClosed] _
            newTailer_on_file_cold _).
  vm_compute. reflexivity.
Defined.

(** X14.  The loop logs at level [Error] exactly once per thing that
    went wrong in an iteration (a failed stat; a failed offset read after
    a successful stat; a read error carried by a line; a handler
    failure) and not at all in an iteration where nothing did. *)
Theorem run_body_errors lbl os w0 p t ss w1 ev w :
  newTailer lbl os downstream w0 p = (Ok (t, ss), w1) →
  length (errors (logs (fst (run_body t ev w))))
  = (length (errors (logs w)) + failures ev)%nat.
Proof.
  intros Hn. destruct (newTailer_wired _ _ _ _ _ _ _ Hn) as [Hw _].
  unfold run_body. rewrite Hw.
  unfold AddLabelsMiddleware, downstream, errors.
  destruct ev as [[fi|e] [pos|e']|l [e|]| |]; simpl;
    try destruct (Err l); simpl;
    rewrite ?List.filter_app, ?length_app; simpl; unfold LogEntry; lia.
Qed.

Lemma run_body_errors_witness :
  length (errors (logs (fst (run_body (ex_tailer ex_file 0 false)
            (LineRecv (mkLine "a" 1 (Some "short read")) (Some "refused"))
            (ex_world ∅)))))
  = (length (errors (logs (ex_world ∅))) + 2)%nat.
Proof.
  exact (run_body_errors ex_label ex_os (ex_world ∅) ex_file _ _ _
           (LineRecv (mkLine "a" 1 (Some "short read")) (Some "refused"))
           (ex_world ∅) newTailer_on_file_cold).
Defined.

(** X15.  Resumption: a session constructed on the same requested path
    after any schedule of an earlier one, and resolving to the same
    file, is opened at the offset of the last checkpoint of the earlier
    session whose offset read succeeded. *)
Theorem resume_at_last_checkpoint lbl os w0 p t ss w1 cs s pos os' h' reOpen' :
  newTailer lbl os downstream w0 p = (Ok (t, ss), w1) →
  exec t cs (mkSys w1 ss) = Some s →
  last_tell cs = Some pos →
  resolves os' p (filename t) reOpen' →
  TailFile_error os' (filename t) (opening (world s) (filename t) reOpen') = None →
  ∃ t2 w2, newTailer lbl os' h' (world s) p = (Ok (t2, fresh), w2) ∧
           filename t2 = filename t ∧
           Location (Config (tail t2)) = mkSeekInfo pos 0.
Proof.
  intros Hn Hex Hlast Hres Hopen.
  destruct (newTailer_wired _ _ _ _ _ _ _ Hn) as [Hw _].
  pose proof (exec_store _ _ _ _ _ Hw Hex) as Hp. rewrite Hlast in Hp.
  eexists _, _. split; [apply (newTailer_Ok_intro _ _ _ _ _ _ _ Hres Hopen)|].
  split; [reflexivity|]. unfold opening. cbn [tail Config Location].
  rewrite Hp. unfold Get, Put. by rewrite lookup_insert_eq.
Qed.

Lemma resume_at_last_checkpoint_witness :
  ∃ s, exec (ex_tailer ex_file 0 false) ex_schedule
            (mkSys (mkWorld ∅ ∅ ∅ ∅ 1 [] [] [ex_file]) fresh) = Some s ∧
  ∃ t2 w2, newTailer ex_label ex_os downstream (world s) ex_file
           = (Ok (t2, fresh), w2) ∧
           filename t2 = filename (ex_tailer ex_file 0 false) ∧
           Location (Config (tail t2)) = mkSeekInfo 5 0.
Proof.
  eexists. split; [vm_compute; reflexivity|].
  eapply (resume_at_last_checkpoint ex_label ex_os (ex_world ∅) ex_file _ _ _
            ex_schedule _ 5 ex_os downstream false newTailer_on_file_cold).
  - vm_compute. reflexivity.
  - reflexivity.
  - exists (mkFileInfo 420 9). split; [reflexivity|]. split; reflexivity.
  - reflexivity.
Defined.

(** X16.  [stop] is to be called once: as soon as a first call has
    closed [quit] (in particular once it has returned), any further call
    panics at [close(t.quit)]; it has by then made its own checkpoint
    attempt, and it neither decrements [filesActive] nor changes the
    channels. *)
Theorem stop_twice_panics (t : tailer) w cs s tell err :
  exec t cs (mkSys w fresh) = Some s →
  quit_closed_by (stopPc (sess s)) = true →
  ∃ s', stop t tell err s = Panicked s' ∧
        sess s' = sess s ∧
        filesActive (world s') = filesActive (world s) ∧
        positions (world s') = positions (fst (markPosition t tell (world s))).
Proof.
  intros Hex Hc. destruct (exec_channels _ _ _ _ Hex) as (Hq & _).
  rewrite Hc in Hq. unfold stop. rewrite Hq. simpl.
  eexists. split; [reflexivity|]. destruct tell; simpl; auto.
Qed.

Lemma stop_twice_panics_witness :
  ∃ s s', exec (ex_tailer ex_file 0 false)
               [CRunStart; CStopMark (Ok 2); CStopSource None; CStopCloseQuit;
                CRun QuitRecv; CStopAwaitDone; CStopDecr; CStopReturn]
               (mkSys (ex_world ∅) fresh) = Some s ∧
          stop (ex_tailer ex_file 0 false) (Ok 7) None s = Panicked s' ∧
          filesActive (world s') = filesActive (world s).
Proof.
  eexists. 
  destruct (stop_twice_panics (ex_tailer ex_file 0 false) (ex_world ∅)
              [CRunStart; CStopMark (Ok 2); CStopSource None; CStopCloseQuit;
               CRun QuitRecv; CStopAwaitDone; CStopDecr; CStopReturn]
              _ (Ok 7) None eq_refl eq_refl) as (s' & H1 & _ & H2 & _).
  exists s'. split_and!; [reflexivity | exact H1 | exact H2].
Defined.

(** X17.  A first call of [stop], the loop making no step meanwhile:
    if the loop has already returned, [stop] returns the source's stop
    error, and leaves the world and [quit] exactly as its six steps do;
    if the loop has not returned, [stop] is left waiting on [done], with
    its checkpoint attempt made and [quit] closed, so that the [quit]
    case of the loop can now be taken; it does not panic. *)
Theorem stop_alone (t : tailer) w cs s tell err :
  exec t cs (mkSys w fresh) = Some s →
  stopPc (sess s) = SIdle →
  match stop t tell err s with
  | Returned e s' =>
    e = err ∧ loopPc (sess s) = LExited ∧
    ∃ s2, exec t (stop_choices tell err) s = Some s2 ∧
          world s2 = world s' ∧ quit (sess s2) = quit (sess s') ∧
          quit (sess s') = Closed
  | Blocked s' =>
    loopPc (sess s) ≠ LExited ∧
    ∃ s2, exec t [CStopMark tell; CStopSource err; CStopCloseQuit] s = Some s2 ∧
          world s2 = world s' ∧ quit (sess s') = Closed ∧
          step t CStopAwaitDone s2 = None ∧
          ready QuitRecv (sess s') = true
  | Panicked _ => False
  end.
Proof.
  intros Hex Hidle.
  destruct (exec_reach_inv _ _ _ _ Hex) as [Hl _].
  destruct (exec_channels _ _ _ _ Hex) as (Hq & _).
  unfold loop_inv in Hl. rewrite Hidle in Hq. simpl in Hq.
  destruct s as [w' [q d l tk lp sp]]. simpl in *. subst q sp.
  destruct lp; destruct Hl as (-> & -> & _); destruct tell; simpl;
    split_and!; auto; try discriminate; eexists; split_and!; reflexivity.
Qed.

Lemma stop_alone_witness :
  match stop (ex_tailer ex_file 0 false) (Ok 2) None
             (mkSys (Log Info [VStr "msg"; VStr "start tailing file";
                               VStr "path"; VStr ex_file] (ex_world ∅))
                    (mkSession Open Open Open Ticking LSelect SIdle)) with
  | Blocked s' => quit (sess s') = Closed
  | _ => False
  end.
Proof.
  pose proof (stop_alone (ex_tailer ex_file 0 false) (ex_world ∅) [CRunStart]
                _ (Ok 2) None eq_refl eq_refl) as H.
  simpl in H. destruct H as (_ & s2 & _ & _ & Hq & _). exact Hq.
Defined.
